(** * The Gruntz limit engine of [limits.py], embedded over an abstract
      expression kernel.

    [limits.py] imports the expression kernel as [import sym as s]; the
    kernel itself (construction, [eval], [subs], [diff], [series], [==]) is
    not part of the sources.  The engine is therefore embedded over a record
    [kernel] holding exactly the kernel methods that [limits.py] calls, and
    every theorem about the engine is stated for an arbitrary kernel.  A
    small concrete kernel, [RefKernel.K], is given further down; it is used
    to run the engine on concrete inputs. *)

From Stdlib Require Import String List ZArith QArith Bool Lia Permutation Sorted.
Import ListNotations.
Open Scope Z_scope.
Set Warnings "-register-all".

(** ** Expression trees *)

(** Modelled from the spec: the expression classes of the kernel [sym] are
    not among the sources.  The node kinds are those of the data model --
    rational numbers, symbols, sums and products with a list of operands,
    powers, [exp], [ln] and the sentinel infinity -- under the names
    [limits.py] tests with [isinstance] ([s.number], [s.symbol], [s.add],
    [s.mul], [s.pow], [s.exp], [s.ln]) and with the fields it reads
    ([t.args], [e.a], [e.b], [e.arg]).  A symbol is identified by its name:
    [limits.py] obtains its symbols with [s.symbol("x")] and
    [s.symbol("w")], and the kernel keeps a separate [dummy] flag for symbols
    that must be unique (see [Symbol("w", True)] in [functions.py]). *)
Inductive expr : Type :=
| number (q : Q)
| symbol (name : string)
| add (args : list expr)
| mul (args : list expr)
| pow (a b : expr)
| exp (arg : expr)
| ln (arg : expr)
| infty.

Definition rational (n : Z) : expr := number (n # 1).

Definition is_number (e : expr) : bool :=
  match e with number _ => true | _ => false end.
Definition is_symbol (e : expr) : bool :=
  match e with symbol _ => true | _ => false end.
Definition is_add (e : expr) : bool :=
  match e with add _ => true | _ => false end.
Definition is_mul (e : expr) : bool :=
  match e with mul _ => true | _ => false end.
Definition is_exp (e : expr) : bool :=
  match e with exp _ => true | _ => false end.

(** Modelled from the spec: the arithmetic operators of kernel objects are
    not among the sources.  They build the nodes of the data model and leave
    them unevaluated; [limits.py] calls [.eval()] itself where it needs a
    canonical form ([(s.rational(10)**10).eval()]). *)
Definition e_add (a b : expr) : expr := add [a; b].
Definition e_mul (a b : expr) : expr := mul [a; b].
Definition e_pow (a b : expr) : expr := pow a b.
Definition e_neg (a : expr) : expr := mul [rational (-1); a].
Definition e_sub (a b : expr) : expr := add [a; e_neg b].
Definition e_div (a b : expr) : expr := mul [a; pow b (rational (-1))].

(** ** Failures *)

(** An [assert] is tagged with its line in [limits.py]; the two string
    exceptions carry the offending expression. *)
Inductive error : Type :=
| AssertionError (line : nat)
| SignError (e : expr)          (* raise "cannot determine the sign of %s" *)
| MrvError (e : expr)           (* raise "unimplemented in mrv: %s" *)
| IndexError                    (* x[0] on an empty list in domul *)
| AttributeError                (* a method or .arg on an object without it *)
| KernelError (msg : string)    (* raised inside a kernel method *)
| ReturnsNone                   (* limitinf falls off its if/elif chain *)
| OutOfFuel.

Inductive result (A : Type) : Type :=
| Ok (a : A)
| Err (err : error).
Arguments Ok {A} a.
Arguments Err {A} err.

Definition bind {A B} (m : result A) (f : A -> result B) : result B :=
  match m with
  | Ok a => f a
  | Err err => Err err
  end.

Notation "x <- m ;; k" := (bind m (fun x => k))
  (at level 61, m at next level, right associativity).
Notation "' pat <- m ;; k" := (bind m (fun x => match x with pat => k end))
  (at level 61, pat pattern, m at next level, right associativity).

Definition assert_ (line : nat) (b : bool) : result unit :=
  if b then Ok tt else Err (AssertionError line).

Fixpoint mapM {A B} (f : A -> result B) (l : list A) : result (list B) :=
  match l with
  | [] => Ok []
  | a :: l' => b <- f a ;; bs <- mapM f l' ;; Ok (b :: bs)
  end.

(** ** The kernel interface *)

Record kernel : Type := Kernel {
  k_eval : expr -> expr;                       (* e.eval() *)
  k_diff : expr -> expr -> expr;               (* e.diff(x) *)
  k_isequal : expr -> expr -> bool;            (* a.isequal(b) *)
  k_eq : expr -> expr -> bool;                 (* a == b *)
  k_lt : expr -> expr -> bool;                 (* a < b *)
  k_subs : expr -> expr -> expr -> expr;       (* e.subs(old, new) *)
  k_series : expr -> expr -> nat -> result expr; (* f.series(x, n) *)
  k_getab : expr -> expr * expr                (* e.getab() *)
}.

(** Modelled from the spec: [e.sign()] is a method of the kernel's numbers,
    which are not among the sources; the sign oracle returns the sign of a
    rational constant, -1, 0 or 1. *)
Definition number_sign (q : Q) : Z := Z.sgn (Qnum q).

(** The first component of the pairs that [leadterm] and [mrvleadterm]
    return: a kernel expression, or the Python int [0] with which [leadterm]
    starts its search ([lowest=(0, ...)]).  The int has none of the methods
    of a kernel object. *)
Inductive coefficient : Type :=
| int0
| kexpr (c : expr).

(** A pair of kernel expressions, as [extract] returns it. *)
Definition lift (t : expr * expr) : coefficient * expr :=
  (kexpr (fst t), snd t).

(** An operand of a kernel operator ([c[0]*g.arg], [wsym**c[0]]): the
    kernel takes a Python int as the number it denotes, as in
    [s.rational(10)**10]. *)
Definition operand (c : coefficient) : expr :=
  match c with
  | int0 => rational 0
  | kexpr e => e
  end.

Section Engine.

Variable K : kernel.

(** ** List helpers ([intersect], [member], [union]) *)

Fixpoint member (x : expr) (a : list expr) : bool :=
  match a with
  | [] => false
  | y :: a' => if k_eq K x y then true else member x a'
  end.

Fixpoint intersect (a b : list expr) : bool :=
  match a with
  | [] => false
  | x :: a' => if member x b then true else intersect a' b
  end.

(** [z = a[:]], then every [x] of [b] that is not a member of [a] (of [a],
    not of the growing [z]) is appended to [z]. *)
Fixpoint union_loop (a z b : list expr) : list expr :=
  match b with
  | [] => z
  | x :: b' => union_loop a (if member x a then z else z ++ [x]) b'
  end.

Definition union (a b : list expr) : list expr :=
  union_loop a a b.

(** ** [has] *)

Definition has (e x : expr) : bool :=
  negb (k_isequal K (k_diff K e x) (rational 0)).

(** ** [sign] *)

Fixpoint sign (fuel : nat) (e x : expr) : result Z :=
  match fuel with
  | O => Err OutOfFuel
  | S n =>
    match e with
    | number q => Ok (number_sign q)
    | _ =>
      if k_eq K e x then Ok 1
      else match e with
      | mul _ =>
        let '(a, b) := k_getab K e in
        sa <- sign n a x ;; sb <- sign n b x ;; Ok (sa * sb)
      | exp _ => Ok 1
      | pow a _ =>
        sa <- sign n a x ;;
        if sa =? 1 then Ok 1 else Err (SignError e)
      | _ => Err (SignError e)
      end
    end
  end.

(** ** [leadterm] *)

Definition domul (x : list expr) : result expr :=
  if (1 <? length x)%nat then Ok (mul x)
  else match x with
       | [] => Err IndexError
       | a :: _ => Ok a
       end.

(** The [for i,a in enumerate(t.args)] loop of [extract]: [pre] is
    [t.args[:i]] and [rest] is [t.args[i:]]. *)
Fixpoint extract_loop (t x : expr) (pre rest : list expr)
  : result (expr * expr) :=
  match rest with
  | [] => Ok (t, rational 0)
  | a :: rest' =>
    if has a x then
      match a with
      | pow _ b => c <- domul (pre ++ rest') ;; Ok (c, b)
      | symbol _ => c <- domul (pre ++ rest') ;; Ok (c, rational 1)
      | _ => Err (AssertionError 120)
      end
    else extract_loop t x (pre ++ [a]) rest'
  end.

Definition extract (t x : expr) : result (expr * expr) :=
  if negb (has t x) then Ok (t, rational 0)
  else match t with
       | pow _ b => Ok (rational 1, b)
       | symbol _ => Ok (rational 1, rational 1)
       | mul args => extract_loop t x [] args
       | _ => Err (AssertionError 113)
       end.

Definition lowest_init : coefficient * expr :=
  (int0, k_eval K (e_pow (rational 10) (rational 10))).

Fixpoint lowest_loop (x : expr) (lowest : coefficient * expr)
  (args : list expr) : result (coefficient * expr) :=
  match args with
  | [] => Ok lowest
  | t :: args' =>
    t2 <- extract t x ;;
    lowest_loop x (if k_lt K (snd t2) (snd lowest) then lift t2 else lowest)
                args'
  end.

Definition leadterm (f x : expr) : result (coefficient * expr) :=
  s0 <- k_series K f x 1 ;;
  let series := k_eval K s0 in
  _ <- assert_ 101 (negb (k_eq K series (rational 0))) ;;
  match series with
  | add args => lowest_loop x lowest_init args
  | _ => t2 <- extract series x ;; Ok (lift t2)
  end.

(** ** [Omega.sort(cmp=cmpfunc)] *)

(** A stable insertion sort driven by a comparison that can fail.  A list
    of fewer than two elements is returned without any comparison, as in
    CPython; for longer lists CPython finds the insertion point by binary
    search, which gives the same list for a consistent comparison but asks
    in another order. *)
Fixpoint insert_cmp (cmp : expr -> expr -> result Z) (pivot : expr)
  (sorted : list expr) : result (list expr) :=
  match sorted with
  | [] => Ok [pivot]
  | p :: rest =>
    c <- cmp pivot p ;;
    if c <? 0 then Ok (pivot :: p :: rest)
    else r <- insert_cmp cmp pivot rest ;; Ok (p :: r)
  end.

Fixpoint sort_from (cmp : expr -> expr -> result Z) (sorted l : list expr)
  : result (list expr) :=
  match l with
  | [] => Ok sorted
  | a :: l' => s <- insert_cmp cmp a sorted ;; sort_from cmp s l'
  end.

Definition sort_cmp (cmp : expr -> expr -> result Z) (l : list expr)
  : result (list expr) := sort_from cmp [] l.

(** Python's [cmp] on two lengths. *)
Definition py_cmp (a b : nat) : Z :=
  match Nat.compare a b with
  | Lt => -1
  | Eq => 0
  | Gt => 1
  end.

(** ** [moveup], [movedown] *)

Definition moveup (l : list expr) (x : expr) : list expr :=
  map (fun e => k_eval K (k_subs K e x (exp x))) l.

Definition movedown (l : list expr) (x : expr) : list expr :=
  map (fun e => k_eval K (k_subs K e x (ln x))) l.

(** [movedown] applied to the pair returned by [mrvleadterm]: the list
    comprehension calls [e.subs] on the coefficient first, which the int 0
    does not have. *)
Definition movedown_pair (c : coefficient * expr) (x : expr)
  : result (coefficient * expr) :=
  match fst c with
  | int0 => Err AttributeError
  | kexpr c0 =>
    match movedown [c0; snd c] x with
    | [c0'; e0'] => Ok (kexpr c0', e0')
    | _ => Err IndexError
    end
  end.

(** ** The entry assertions of [rewrite] *)

Definition attr_arg (e : expr) : result expr :=
  match e with
  | exp a => Ok a
  | ln a => Ok a
  | _ => Err AttributeError
  end.

Fixpoint assert_all_exp (Omega : list expr) : result unit :=
  match Omega with
  | [] => Ok tt
  | t :: Omega' => _ <- assert_ 178 (is_exp t) ;; assert_all_exp Omega'
  end.

Definition rewrite_entry (Omega : list expr) : result unit :=
  _ <- assert_all_exp Omega ;;
  assert_ 179 (negb (length Omega =? 0)%nat).

(** The symbols [limits.py] creates. *)
Definition limit_x : expr := symbol "x".
Definition mrvleadterm_wsym : expr := symbol "w".

(** The replacement [rewrite] computes for [f] once [c] is known. *)
Definition rewrite_term (f_arg g_arg wsym c : expr) : expr :=
  k_eval K (e_mul (exp (e_sub f_arg (e_mul c g_arg))) (e_pow wsym c)).

Definition subs_all (e : expr) (pairs : list (expr * expr)) : expr :=
  fold_left (fun f ab => k_subs K f (fst ab) (snd ab)) pairs e.

(** ** The mutually recursive core

    [limitinf], [mrvleadterm], [rewrite], [mrv], [max] and [compare] call
    one another, and nothing in [limits.py] bounds the recursion, so they
    take fuel; every call, also one to [sign], is given the caller's fuel
    less one. *)

Fixpoint limitinf (fuel : nat) (e x : expr) {struct fuel} : result expr :=
  match fuel with
  | O => Err OutOfFuel
  | S n =>
    if negb (has e x) then Ok e
    else
      '(c0, e0) <- mrvleadterm n e x None ;;
      sig <- sign n e0 x ;;
      if sig =? 1 then Ok (rational 0)
      else if sig =? -1 then Ok infty
      else if sig =? 0 then
        match c0 with
        | kexpr c => limitinf n c x
        | int0 => Err AttributeError   (* has(c0, x) calls c0.diff *)
        end
      else Err ReturnsNone
  end

with mrvleadterm (fuel : nat) (e x : expr) (Omega : option (list expr))
  {struct fuel} : result (coefficient * expr) :=
  match fuel with
  | O => Err OutOfFuel
  | S n =>
    let e := k_eval K e in
    if negb (has e x) then Ok (kexpr e, rational 0)
    else
      Omega <- match Omega with
               | None => mrv n e x
               | Some Omega => Ok Omega
               end ;;
      if member x Omega then
        r <- mrvleadterm n (k_eval K (k_subs K e x (exp x))) x
               (Some (moveup Omega x)) ;;
        movedown_pair r x
      else
        let wsym := mrvleadterm_wsym in
        f <- rewrite n e Omega x wsym ;;
        leadterm f wsym
  end

with rewrite (fuel : nat) (e : expr) (Omega : list expr) (x wsym : expr)
  {struct fuel} : result expr :=
  match fuel with
  | O => Err OutOfFuel
  | S n =>
    _ <- rewrite_entry Omega ;;
    Omega <- sort_cmp (fun a b =>
                         la <- mrv n a x ;; lb <- mrv n b x ;;
                         Ok (- py_cmp (length la) (length lb))) Omega ;;
    g_arg <- attr_arg (last Omega infty) ;;
    sg <- sign n g_arg x ;;
    let wsym := if sg =? 1 then e_div (rational 1) wsym else wsym in
    O2 <- mapM (fun f =>
                  f_arg <- attr_arg f ;;
                  c <- mrvleadterm n (e_div f_arg g_arg) x None ;;
                  _ <- assert_ 192 (k_eq K (snd c) (rational 0)) ;;
                  Ok (rewrite_term f_arg g_arg wsym (operand (fst c))))
               Omega ;;
    Ok (subs_all e (combine Omega O2))
  end

with mrv (fuel : nat) (e x : expr) {struct fuel} : result (list expr) :=
  match fuel with
  | O => Err OutOfFuel
  | S n =>
    if negb (has e x) then Ok []
    else if k_eq K e x then Ok [x]
    else match e with
         | mul _ | add _ =>
           let '(a, b) := k_getab K e in
           la <- mrv n a x ;; lb <- mrv n b x ;; max n la lb x
         | pow a b =>
           if is_number b then mrv n a x else Err (MrvError e)
         | ln arg => mrv n arg x
         | exp arg =>
           l <- limitinf n arg x ;;
           if k_eq K l infty then
             m <- mrv n arg x ;; max n [e] m x
           else mrv n arg x
         | _ => Err (MrvError e)
         end
  end

with max (fuel : nat) (f g : list expr) (x : expr) {struct fuel}
  : result (list expr) :=
  match fuel with
  | O => Err OutOfFuel
  | S n =>
    match f, g with
    | [], _ => Ok g
    | _, [] => Ok f
    | f0 :: _, g0 :: _ =>
      if intersect f g then Ok (union f g)
      else if member x f then Ok g
      else if member x g then Ok f
      else
        c <- compare n f0 g0 x ;;
        match c with
        | Gt => Ok f
        | Lt => Ok g
        | Eq => Ok (union f g)
        end
    end
  end

with compare (fuel : nat) (a b x : expr) {struct fuel} : result comparison :=
  match fuel with
  | O => Err OutOfFuel
  | S n =>
    c <- limitinf n (e_div (ln a) (ln b)) x ;;
    if k_eq K c (rational 0) then Ok Lt
    else if k_eq K c infty then Ok Gt
    else Ok Eq
  end.

(** ** [limit] *)

Definition limit (fuel : nat) (e z z0 : expr) : result expr :=
  let x := limit_x in
  let e0 := k_subs K e z (e_add z0 (e_div (rational 1) x)) in
  limitinf fuel e0 x.

End Engine.

(** ** A reference kernel *)

Module RefKernel.

(** Structural equality of expression trees. *)
Fixpoint expr_eqb (a b : expr) {struct a} : bool :=
  let fix list_eqb (l m : list expr) {struct l} : bool :=
    match l, m with
    | [], [] => true
    | a' :: l', b' :: m' => expr_eqb a' b' && list_eqb l' m'
    | _, _ => false
    end in
  match a, b with
  | number p, number q =>
    (Qnum p =? Qnum q) && (Pos.eqb (Qden p) (Qden q))
  | symbol s, symbol t => String.eqb s t
  | add l, add m => list_eqb l m
  | mul l, mul m => list_eqb l m
  | pow a1 a2, pow b1 b2 => expr_eqb a1 b1 && expr_eqb a2 b2
  | exp a1, exp b1 => expr_eqb a1 b1
  | ln a1, ln b1 => expr_eqb a1 b1
  | infty, infty => true
  | _, _ => false
  end.

Definition is_zero (e : expr) : bool := expr_eqb e (rational 0).
Definition is_one (e : expr) : bool := expr_eqb e (rational 1).

Definition q_is (q : Q) (n : Z) : bool :=
  (Qnum (Qred q) =? n) && Pos.eqb (Qden (Qred q)) 1.

(** *** Canonical forms of one node whose children are canonical *)

Definition flatten_mul (l : list expr) : list expr :=
  flat_map (fun e => match e with mul l' => l' | _ => [e] end) l.
Definition flatten_add (l : list expr) : list expr :=
  flat_map (fun e => match e with add l' => l' | _ => [e] end) l.

(** Adds [q] to the number paired with [key], keeping the order of first
    occurrence. *)
Fixpoint collect (key : expr) (q : Q) (acc : list (expr * Q))
  : list (expr * Q) :=
  match acc with
  | [] => [(key, q)]
  | (k, q') :: acc' =>
    if expr_eqb k key then (k, Qred (q' + q)) :: acc'
    else (k, q') :: collect key q acc'
  end.

Definition numbers_product (l : list expr) : Q :=
  fold_left (fun q e => match e with number q' => Qred (q * q') | _ => q end)
            l 1%Q.
Definition numbers_sum (l : list expr) : Q :=
  fold_left (fun q e => match e with number q' => Qred (q + q') | _ => q end)
            l 0%Q.

Definition base_exponent (e : expr) : expr * Q :=
  match e with
  | pow c (number q) => (c, q)
  | _ => (e, 1%Q)
  end.

Definition mk_mul (l : list expr) : expr :=
  if existsb is_zero l then rational 0
  else
    let l := flatten_mul l in
    let coeff := numbers_product l in
    let others := filter (fun e => negb (is_number e)) l in
    let powers :=
      fold_left (fun acc e => let '(c, q) := base_exponent e in collect c q acc)
                others [] in
    let factors :=
      flat_map (fun cq : expr * Q =>
                  let '(c, q) := cq in
                  if q_is q 0 then []
                  else if q_is q 1 then [c]
                  else [pow c (number q)]) powers in
    if q_is coeff 0 then rational 0
    else if q_is coeff 1 then
      match factors with
      | [] => rational 1
      | [f] => f
      | _ => mul factors
      end
    else
      match factors with
      | [] => number coeff
      | _ => mul (number coeff :: factors)
      end.

(** [a ** b] for a base that is not a product: a number to an integer
    power is computed, and a power of a power with numeric exponents is
    collapsed. *)
Definition mk_pow_atom (qb : Q) (a : expr) : expr :=
  match a with
  | number qa =>
    if Pos.eqb (Qden (Qred qb)) 1 && negb (q_is qa 0)
    then number (Qred (Qpower qa (Qnum (Qred qb))))
    else pow a (number qb)
  | pow c (number qc) =>
    let q := Qred (qc * qb) in
    if q_is q 0 then rational 1
    else if q_is q 1 then c
    else pow c (number q)
  | _ => pow a (number qb)
  end.

(** [a ** b]: [a ** 0] is 1, [a ** 1] is [a], and an integer power of a
    product is the product of the powers. *)
Definition mk_pow (a b : expr) : expr :=
  match b with
  | number qb =>
    if q_is qb 0 then rational 1
    else if q_is qb 1 then a
    else match a with
         | mul l =>
           if Pos.eqb (Qden (Qred qb)) 1
           then mk_mul (map (mk_pow_atom qb) l)
           else pow a b
         | _ => mk_pow_atom qb a
         end
  | _ => pow a b
  end.

Definition coeff_rest (e : expr) : expr * Q :=
  match e with
  | mul [number q; r] => (r, q)
  | mul (number q :: rest) => (mul rest, q)
  | _ => (e, 1%Q)
  end.

Definition mk_add (l : list expr) : expr :=
  let l := flatten_add l in
  let const := numbers_sum l in
  let others := filter (fun e => negb (is_number e)) l in
  let terms :=
    fold_left (fun acc e => let '(r, q) := coeff_rest e in collect r q acc)
              others [] in
  let summands :=
    flat_map (fun rq : expr * Q =>
                let '(r, q) := rq in
                if q_is q 0 then []
                else if q_is q 1 then [r]
                else match r with
                     | mul rest => [mul (number q :: rest)]
                     | _ => [mul [number q; r]]
                     end) terms in
  if q_is const 0 then
    match summands with
    | [] => rational 0
    | [t] => t
    | _ => add summands
    end
  else
    match summands with
    | [] => number const
    | _ => add (number const :: summands)
    end.

Definition mk_exp (a : expr) : expr :=
  match a with
  | ln u => u
  | _ => if is_zero a then rational 1 else exp a
  end.

Definition mk_ln0 (a : expr) : expr :=
  match a with
  | exp u => u
  | _ => if is_one a then rational 0 else ln a
  end.

Definition mk_ln1 (a : expr) : expr :=
  match a with
  | pow c b => mk_mul [b; mk_ln0 c]
  | _ => mk_ln0 a
  end.

Definition mk_ln (a : expr) : expr :=
  match a with
  | mul l => mk_add (map mk_ln1 l)
  | _ => mk_ln1 a
  end.

(** Modelled from the spec: the expression kernel [sym] is not among the
    sources.  [eval] is the canonicalisation of the data-model invariants:
    [add] and [mul] flattened, numeric factors and summands combined, equal
    bases and equal terms collected, [x*1], [x+0] and [x**0] eliminated,
    [exp(ln(a))] and [ln(exp(a))] reduced to [a], [ln(1)] to 0, [ln(a*b)] to
    [ln a + ln b] and [ln(a**b)] to [b * ln a].  Operands keep the order of
    their first occurrence, numbers first. *)
Fixpoint eval (e : expr) : expr :=
  match e with
  | number q => number (Qred q)
  | symbol _ => e
  | infty => e
  | add l => mk_add (map eval l)
  | mul l => mk_mul (map eval l)
  | pow a b => mk_pow (eval a) (eval b)
  | exp a => mk_exp (eval a)
  | ln a => mk_ln (eval a)
  end.

(** The product (sum) of the operands left after the first one. *)
Definition rebuild (node : list expr -> expr) (rest : list expr) : expr :=
  match rest with
  | [b] => b
  | _ => node rest
  end.

(** Modelled from the spec: [e.getab()] is a kernel method; it splits a sum
    or product into its first operand and the sum or product of the others
    ([log.eval] in [functions.py] turns [ln] of [a, b = arg.getab()] into
    [ln a + ln b]). *)
Definition getab (e : expr) : expr * expr :=
  match e with
  | add (a :: rest) => (a, rebuild add rest)
  | mul (a :: rest) => (a, rebuild mul rest)
  | _ => (e, e)
  end.

(** The derivative before canonicalisation; sums and products are split as
    [getab] splits them. *)
Fixpoint raw_diff (e x : expr) {struct e} : expr :=
  match e with
  | number _ => rational 0
  | symbol _ => if expr_eqb e x then rational 1 else rational 0
  | infty => rational 0
  | add l =>
    (fix dsum (l : list expr) : expr :=
       match l with
       | [] => rational 0
       | [a] => raw_diff a x
       | a :: rest => add [raw_diff a x; dsum rest]
       end) l
  | mul l =>
    (fix dprod (l : list expr) : expr :=
       match l with
       | [] => rational 0
       | [a] => raw_diff a x
       | a :: rest =>
         add [mul [raw_diff a x; rebuild mul rest]; mul [a; dprod rest]]
       end) l
  | pow a b =>
    match b with
    | number q =>
      mul [b; pow a (number (q - 1)); raw_diff a x]
    | _ =>
      mul [e; add [mul [raw_diff b x; ln a];
                   mul [b; pow a (rational (-1)); raw_diff a x]]]
    end
  | exp u => mul [e; raw_diff u x]
  | ln u => mul [pow u (rational (-1)); raw_diff u x]
  end.

(** Modelled from the spec: [differentiate(e, sym)] of the kernel, by the
    sum, product, power and chain rules ([Function.diff] in [functions.py]
    is [derivative() * arg.diff(sym)]).  Like the arithmetic operators it
    builds an unevaluated tree; [equals] canonicalises it. *)
Definition diff (e x : expr) : expr := raw_diff e x.

(** Modelled from the spec: [equals(a, b)] is true iff the canonical forms
    coincide. *)
Definition equals (a b : expr) : bool := expr_eqb (eval a) (eval b).

Fixpoint subs_struct (e old new : expr) {struct e} : expr :=
  if expr_eqb e old then new
  else match e with
       | add l => add (map (fun a => subs_struct a old new) l)
       | mul l => mul (map (fun a => subs_struct a old new) l)
       | pow a b => pow (subs_struct a old new) (subs_struct b old new)
       | exp a => exp (subs_struct a old new)
       | ln a => ln (subs_struct a old new)
       | _ => e
       end.

(** Modelled from the spec: [substitute(e, old, new)] has the semantics of
    structural rewriting followed by canonicalisation. *)
Definition subs (e old new : expr) : expr := eval (subs_struct e old new).

(** Modelled from the spec: [<] of the kernel, on rational numbers. *)
Definition lt (a b : expr) : bool :=
  match a, b with
  | number p, number q =>
    Qnum p * Zpos (Qden q) <? Qnum q * Zpos (Qden p)
  | _, _ => false
  end.

Definition depends (e x : expr) : bool := negb (equals (diff e x) (rational 0)).

(** The exponent of [x] in a canonical monomial, if it is one. *)
Definition monomial_exponent (t x : expr) : option Q :=
  if negb (depends t x) then Some 0%Q
  else match t with
       | symbol _ => if expr_eqb t x then Some 1%Q else None
       | pow c (number q) => if expr_eqb c x then Some q else None
       | mul l =>
         match filter (fun a => depends a x) l with
         | [a] =>
           match a with
           | symbol _ => if expr_eqb a x then Some 1%Q else None
           | pow c (number q) => if expr_eqb c x then Some q else None
           | _ => None
           end
         | _ => None
         end
       | _ => None
       end.

Definition within (n : nat) (oq : option Q) : bool :=
  match oq with
  | Some q => Qnum q <=? Z.of_nat n * Zpos (Qden q)
  | None => false
  end.

(** Modelled from the spec: [series(e, sym, n)] produces the first terms of
    the expansion around [sym = 0].  Only the case in which nothing has to
    be expanded is modelled: a canonical sum of monomials [c * sym**k] with
    every [k <= n] is its own expansion ([(x + 1/x).series(x, 3) == x + 1/x]
    in [test_series.py]); any other expression is reported as a kernel
    failure. *)
Definition series (f x : expr) (n : nat) : result expr :=
  let g := eval f in
  let summands := match g with add l => l | _ => [g] end in
  if forallb (fun t => within n (monomial_exponent t x)) summands
  then Ok g
  else Err (KernelError "series: not a finite Laurent sum").

Definition K : kernel :=
  {| k_eval := eval;
     k_diff := diff;
     k_isequal := equals;
     k_eq := equals;
     k_lt := lt;
     k_subs := subs;
     k_series := series;
     k_getab := getab |}.

End RefKernel.

(** ** Notions used to state the properties *)

(** [s] is a subterm of [e]. *)
Fixpoint occurs (s e : expr) {struct e} : bool :=
  RefKernel.expr_eqb e s ||
  match e with
  | add l => existsb (occurs s) l
  | mul l => existsb (occurs s) l
  | pow a b => occurs s a || occurs s b
  | exp a => occurs s a
  | ln a => occurs s a
  | _ => false
  end.

(** No element of [l] is [==] to an element before it: nothing that is
    already a [member] was appended. *)
Definition no_duplicates (K : kernel) (l : list expr) : Prop :=
  forall pre y post, l = pre ++ y :: post -> member K y pre = false.

(** [a] comes before [b] when sorting by the size of the mrv set,
    descending. *)
Definition mrv_size_ge (K : kernel) (n : nat) (x a b : expr) : Prop :=
  exists la lb, mrv K n a x = Ok la /\ mrv K n b x = Ok lb /\
                (length lb <= length la)%nat.

(** The result the spec gives [limitinf] for a negative leading exponent:
    infinity carrying the sign of [c0]. *)
Definition infty_with_sign (s : Z) : expr :=
  if s =? -1 then e_neg infty else infty.

(** What the kernel has to guarantee about [diff] for [has] to follow the
    structure of an expression: a node all of whose operands are free of [x]
    is free of [x]. *)
Record dependence_laws (K : kernel) (x : expr) : Prop := {
  has_getab : forall e a b,
    is_mul e || is_add e = true -> k_getab K e = (a, b) ->
    has K a x = false -> has K b x = false -> has K e x = false;
  has_pow : forall a b,
    is_number b = true -> has K a x = false -> has K (pow a b) x = false;
  has_ln : forall a, has K a x = false -> has K (ln a) x = false;
  has_exp : forall a, has K a x = false -> has K (exp a) x = false
}.



(** [<] on two numbers is the order of the rationals. *)
Definition order_law (K : kernel) : Prop :=
  forall p q, k_lt K (number p) (number q) = true <-> (p < q)%Q.

(** Results obtained with fuel [n] are obtained with any larger fuel. *)
Definition stable_at (K : kernel) (n : nat) : Prop :=
  forall m, (n <= m)%nat ->
  (forall e x v, limitinf K n e x = Ok v -> limitinf K m e x = Ok v) /\
  (forall e x o v,
     mrvleadterm K n e x o = Ok v -> mrvleadterm K m e x o = Ok v) /\
  (forall e Omega x w v,
     rewrite K n e Omega x w = Ok v -> rewrite K m e Omega x w = Ok v) /\
  (forall e x v, mrv K n e x = Ok v -> mrv K m e x = Ok v) /\
  (forall f g x v, max K n f g x = Ok v -> max K m f g x = Ok v) /\
  (forall a b x v, compare K n a b x = Ok v -> compare K m a b x = Ok v).

(** * Properties *)

(** ** The error monad *)

Lemma bind_ok {A B} (m : result A) (f : A -> result B) (b : B) :
  bind m f = Ok b -> exists a, m = Ok a /\ f a = Ok b.
Proof.
  destruct m as [a|err]; simpl; intros H.
  - exists a; split; [reflexivity | exact H].
  - discriminate.
Qed.

Lemma assert_ok (line : nat) (b : bool) (u : unit) :
  assert_ line b = Ok u -> b = true.
Proof. destruct b; simpl; [reflexivity | discriminate]. Qed.

Lemma mapM_ok {A B} (f : A -> result B) (l : list A) (bs : list B) :
  mapM f l = Ok bs -> Forall2 (fun a b => f a = Ok b) l bs.
Proof.
  revert bs; induction l as [|a l IH]; simpl; intros bs H.
  - injection H as <-. constructor.
  - apply bind_ok in H as (b & Hb & H).
    apply bind_ok in H as (bs' & Hbs & H).
    injection H as <-. constructor; auto.
Qed.

Ltac inv_bind H :=
  let a := fresh "v" in
  let Ha := fresh "Hv" in
  apply bind_ok in H as (a & Ha & H).

(** ** The loop of [union] *)

(** The loop of [union] appends to [z], in the order of [b], the elements of
    [b] that are not members of [a]. *)
Lemma union_loop_filter (K : kernel) (a z b : list expr) :
  union_loop K a z b = z ++ filter (fun y => negb (member K y a)) b.
Proof.
  revert z; induction b as [|y b IH]; intros z; simpl.
  - symmetry. apply app_nil_r.
  - rewrite IH. destruct (member K y a); simpl; [reflexivity|].
    rewrite <- app_assoc. reflexivity.
Qed.

Lemma union_filter (K : kernel) (a b : list expr) :
  union K a b = a ++ filter (fun y => negb (member K y a)) b.
Proof. apply union_loop_filter. Qed.

(** ** The entry assertions of [rewrite] *)

Section Entry.

Variable K : kernel.

Lemma assert_all_exp_ok (Omega : list expr) :
  assert_all_exp Omega = Ok tt <-> Forall (fun t => is_exp t = true) Omega.
Proof.
  induction Omega as [|t Omega IH]; simpl.
  - split; [constructor | reflexivity].
  - destruct (is_exp t) eqn:Ht; simpl.
    + rewrite IH. split; intros H.
      * constructor; assumption.
      * inversion H; assumption.
    + split; [discriminate|]. intros H; inversion H; congruence.
Qed.

Lemma assert_all_exp_fails (Omega : list expr) (t : expr) :
  In t Omega -> is_exp t = false ->
  assert_all_exp Omega = Err (AssertionError 178).
Proof.
  induction Omega as [|t' Omega IH]; simpl; intros Hin Ht.
  - contradiction.
  - destruct (is_exp t') eqn:Ht'; simpl; [|reflexivity].
    destruct Hin as [->|Hin]; [congruence | auto].
Qed.

(** C10.  With fuel for one call, [rewrite] fails with the assertion of line
    179 when [Omega] is empty and with the assertion of line 178 when some
    element of [Omega] is not an [exp] node, whatever the kernel, the
    expression and the symbols are, so before anything is sorted or
    rewritten; and on a nonempty list of [exp] nodes the two entry
    assertions pass. *)
Theorem rewrite_entry_assertions (n : nat) (e x wsym : expr)
  (Omega : list expr) :
  (Omega = [] -> rewrite K (S n) e Omega x wsym = Err (AssertionError 179)) /\
  ((exists t, In t Omega /\ is_exp t = false) ->
   rewrite K (S n) e Omega x wsym = Err (AssertionError 178)) /\
  (Omega <> [] -> Forall (fun t => is_exp t = true) Omega ->
   rewrite_entry Omega = Ok tt).
Proof.
  repeat split.
  - intros ->. reflexivity.
  - intros (t & Hin & Ht). simpl. unfold rewrite_entry.
    rewrite (assert_all_exp_fails Omega t Hin Ht). reflexivity.
  - intros Hne Hall. unfold rewrite_entry.
    apply assert_all_exp_ok in Hall. rewrite Hall. simpl.
    destruct Omega; [congruence | reflexivity].
Qed.

End Entry.

Lemma rewrite_entry_assertions_witness :
  rewrite RefKernel.K 1 (symbol "x") [] (symbol "x") (symbol "w")
    = Err (AssertionError 179) /\
  rewrite RefKernel.K 1 (symbol "x") [exp (symbol "x"); symbol "x"]
    (symbol "x") (symbol "w") = Err (AssertionError 178) /\
  rewrite_entry [exp (symbol "x")] = Ok tt.
Proof.
  pose proof (rewrite_entry_assertions RefKernel.K 0 (symbol "x")
                (symbol "x") (symbol "w") []) as (H1 & _ & _).
  pose proof (rewrite_entry_assertions RefKernel.K 0 (symbol "x")
                (symbol "x") (symbol "w") [exp (symbol "x"); symbol "x"])
    as (_ & H2 & _).
  pose proof (rewrite_entry_assertions RefKernel.K 0 (symbol "x")
                (symbol "x") (symbol "w") [exp (symbol "x")])
    as (_ & _ & H3).
  split; [apply H1; reflexivity | split].
  - apply H2. exists (symbol "x"). split; [simpl; auto | reflexivity].
  - apply H3; [discriminate | repeat constructor].
Defined.

(** ** The sign oracle *)

Section Sign.

Variable K : kernel.

Lemma sign_range (n : nat) (e x : expr) (s : Z) :
  sign K n e x = Ok s -> s = 1 \/ s = -1 \/ s = 0.
Proof.
  revert e s; induction n as [|n IH]; intros e s H; [discriminate|].
  simpl in H. destruct e.
  1: { injection H as <-. unfold number_sign.
       destruct (Qnum q); simpl; auto. }
  all: destruct (k_eq K _ x); [injection H as <-; auto|]; try discriminate.
  - destruct (k_getab K (mul args)) as [a b].
    inv_bind H. inv_bind H. injection H as <-.
    apply IH in Hv, Hv0. lia.
  - inv_bind H. destruct (v =? 1); [injection H as <-; auto | discriminate].
  - injection H as <-; auto.
Qed.

(** C6.  [sign] applies its rules in order: the arithmetic sign of a number;
    [+1] for an expression equal to [x]; the product of the signs of the two
    parts of a product; [+1] for an [exp] node; [+1] for a power whose base
    has sign [+1]; in every other case an error and no value. *)
Theorem sign_rules (n : nat) (e x : expr) :
  (forall q, e = number q -> sign K (S n) e x = Ok (Z.sgn (Qnum q))) /\
  (is_number e = false -> k_eq K e x = true -> sign K (S n) e x = Ok 1) /\
  (is_number e = false -> k_eq K e x = false -> is_mul e = true ->
   forall a b sa sb, k_getab K e = (a, b) ->
     sign K n a x = Ok sa -> sign K n b x = Ok sb ->
     sign K (S n) e x = Ok (sa * sb)) /\
  (is_number e = false -> k_eq K e x = false -> is_exp e = true ->
   sign K (S n) e x = Ok 1) /\
  (is_number e = false -> k_eq K e x = false ->
   forall a b, e = pow a b -> sign K n a x = Ok 1 ->
     sign K (S n) e x = Ok 1) /\
  (is_number e = false -> k_eq K e x = false ->
   is_mul e = false -> is_exp e = false ->
   (forall a b, e = pow a b -> sign K n a x <> Ok 1) ->
   exists err, sign K (S n) e x = Err err).
Proof.
  repeat split.
  - intros q ->. reflexivity.
  - intros Hn Hx. destruct e; simpl in *; try discriminate;
      rewrite Hx; reflexivity.
  - intros Hn Hx Hm a b sa sb Hab Ha Hb.
    destruct e; simpl in *; try discriminate.
    rewrite Hx, Hab, Ha, Hb. reflexivity.
  - intros Hn Hx He. destruct e; simpl in *; try discriminate.
    rewrite Hx. reflexivity.
  - intros Hn Hx a b -> Ha. simpl. rewrite Hx, Ha. reflexivity.
  - intros Hn Hx Hm He Hp.
    destruct e; simpl in *; try discriminate; rewrite Hx; eauto.
    destruct (sign K n e1 x) as [s|err] eqn:Hs; simpl; eauto.
    destruct (s =? 1) eqn:H1; eauto.
    apply Z.eqb_eq in H1; subst s. exfalso. eapply Hp; eauto.
Qed.

End Sign.

Lemma sign_rules_witness :
  sign RefKernel.K 2 (mul [rational (-1); symbol "x"]) (symbol "x")
    = Ok (-1 * 1) /\
  sign RefKernel.K 2 (pow (symbol "x") (rational 2)) (symbol "x") = Ok 1 /\
  (exists err, sign RefKernel.K 2 (ln (symbol "x")) (symbol "x") = Err err).
Proof.
  pose proof (sign_rules RefKernel.K 1 (mul [rational (-1); symbol "x"])
                (symbol "x")) as (_ & _ & H3 & _).
  pose proof (sign_rules RefKernel.K 1 (pow (symbol "x") (rational 2))
                (symbol "x")) as (_ & _ & _ & _ & H5 & _).
  pose proof (sign_rules RefKernel.K 1 (ln (symbol "x")) (symbol "x"))
    as (_ & _ & _ & _ & _ & H6).
  split; [|split].
  - apply (H3 eq_refl eq_refl eq_refl (rational (-1)) (symbol "x"));
      reflexivity.
  - apply (H5 eq_refl eq_refl (symbol "x") (rational 2)); reflexivity.
  - apply H6; try reflexivity. intros a b Hpow; discriminate.
Defined.

(** ** The mrv set *)

Section Mrv.

Variable K : kernel.

Lemma mrv_eq (n : nat) (e x : expr) :
  mrv K (S n) e x =
  if negb (has K e x) then Ok []
  else if k_eq K e x then Ok [x]
  else match e with
       | mul _ | add _ =>
         let '(a, b) := k_getab K e in
         la <- mrv K n a x ;; lb <- mrv K n b x ;; max K n la lb x
       | pow a b =>
         if is_number b then mrv K n a x else Err (MrvError e)
       | ln arg => mrv K n arg x
       | exp arg =>
         l <- limitinf K n arg x ;;
         if k_eq K l infty then
           m <- mrv K n arg x ;; max K n [e] m x
         else mrv K n arg x
       | _ => Err (MrvError e)
       end.
Proof. reflexivity. Qed.

Lemma max_eq (n : nat) (f g : list expr) (x : expr) :
  max K (S n) f g x =
  match f, g with
  | [], _ => Ok g
  | _, [] => Ok f
  | f0 :: _, g0 :: _ =>
    if intersect K f g then Ok (union K f g)
    else if member K x f then Ok g
    else if member K x g then Ok f
    else
      c <- compare K n f0 g0 x ;;
      match c with
      | Gt => Ok f
      | Lt => Ok g
      | Eq => Ok (union K f g)
      end
  end.
Proof. reflexivity. Qed.

(** [max] returns one of its arguments or their [union]. *)
Lemma max_cases (n : nat) (f g l : list expr) (x : expr) :
  max K n f g x = Ok l -> l = f \/ l = g \/ l = union K f g.
Proof.
  destruct n as [|n]; [discriminate|]. rewrite max_eq.
  destruct f as [|f0 f]; [intros H; injection H as <-; auto|].
  destruct g as [|g0 g]; [intros H; injection H as <-; auto|].
  destruct (intersect K _ _); [intros H; injection H as <-; auto|].
  destruct (member K x (f0 :: f)); [intros H; injection H as <-; auto|].
  destruct (member K x (g0 :: g)); [intros H; injection H as <-; auto|].
  intros H. inv_bind H.
  destruct v; injection H as <-; auto.
Qed.

Lemma max_nil (n : nat) (f g : list expr) (x : expr) :
  max K n f g x = Ok [] -> f = [] /\ g = [].
Proof.
  destruct n as [|n]; [discriminate|]. rewrite max_eq.
  destruct f as [|f0 f]; [intros H; injection H as <-; auto|].
  destruct g as [|g0 g]; [discriminate|].
  destruct (intersect K _ _); [rewrite union_filter; discriminate|].
  destruct (member K x (f0 :: f)); [discriminate|].
  destruct (member K x (g0 :: g)); [discriminate|].
  intros H. inv_bind H.
  destruct v; try discriminate. rewrite union_filter in H. discriminate.
Qed.

(** C5.  For a kernel whose [diff] follows the structure of expressions,
    [mrv(e, x)] returns the empty list when [has(e, x)] is false, and a list
    returned by [mrv(e, x)] is empty exactly when [has(e, x)] is false,
    [has] being the test that the derivative is not zero. *)
Theorem mrv_empty_iff (x : expr) (laws : dependence_laws K x)
  (fuel : nat) (e : expr) :
  (has K e x = false -> mrv K (S fuel) e x = Ok []) /\
  (forall l, mrv K fuel e x = Ok l -> (l = [] <-> has K e x = false)).
Proof.
  split.
  { intros Hhas. rewrite mrv_eq, Hhas. reflexivity. }
  revert e; induction fuel as [|n IH]; intros e l H; [discriminate|].
  rewrite mrv_eq in H.
  destruct (has K e x) eqn:Hhas; simpl in H.
  2: { injection H as <-. split; reflexivity. }
  split; [|discriminate]. intros ->. exfalso.
  destruct (k_eq K e x); [discriminate|].
  assert (Hsplit : forall a b la lb,
             k_getab K e = (a, b) -> is_mul e || is_add e = true ->
             mrv K n a x = Ok la -> mrv K n b x = Ok lb ->
             max K n la lb x = Ok [] -> False).
  { intros a b la lb Hab Hk Ha Hb Hm.
    apply max_nil in Hm as [-> ->].
    apply IH in Ha, Hb.
    rewrite (has_getab K x laws e a b Hk Hab) in Hhas;
      [discriminate | apply Ha; reflexivity | apply Hb; reflexivity]. }
  destruct e; try discriminate.
  - destruct (k_getab K (add args)) as [a b] eqn:Hab.
    inv_bind H. inv_bind H. eapply Hsplit; eauto.
  - destruct (k_getab K (mul args)) as [a b] eqn:Hab.
    inv_bind H. inv_bind H. eapply Hsplit; eauto.
  - destruct (is_number e2) eqn:Hnum; [|discriminate].
    apply IH in H.
    rewrite (has_pow K x laws e1 e2 Hnum) in Hhas;
      [discriminate | apply H; reflexivity].
  - inv_bind H. destruct (k_eq K v infty).
    + inv_bind H. apply max_nil in H as [H _]. discriminate.
    + apply IH in H.
      rewrite (has_exp K x laws e) in Hhas;
        [discriminate | apply H; reflexivity].
  - apply IH in H.
    rewrite (has_ln K x laws e) in Hhas;
      [discriminate | apply H; reflexivity].
Qed.

End Mrv.

(** ** The reference kernel satisfies the kernel laws *)

Module RefKernelFacts.
Import RefKernel.

Lemma is_zero_eq (v : expr) : is_zero v = true -> v = rational 0.
Proof.
  destruct v; try discriminate. unfold is_zero; simpl.
  destruct q as [p d]; simpl. intros H.
  apply andb_prop in H as [Hp Hd].
  apply Z.eqb_eq in Hp. subst p.
  destruct d; try discriminate. reflexivity.
Qed.

Lemma mk_mul_zero (l : list expr) :
  existsb is_zero l = true -> mk_mul l = rational 0.
Proof. intros H. unfold mk_mul. rewrite H. reflexivity. Qed.

Lemma has_zero (e x : expr) :
  has K e x = false <-> is_zero (eval (raw_diff e x)) = true.
Proof.
  unfold has. cbn [K k_isequal k_diff]. unfold equals, diff, is_zero.
  change (eval (rational 0)) with (rational 0).
  split; intros H.
  - apply negb_false_iff in H. exact H.
  - rewrite H. reflexivity.
Qed.

Lemma eval_mul_zero (l : list expr) (v : expr) :
  In v l -> is_zero (eval v) = true -> is_zero (eval (mul l)) = true.
Proof.
  intros Hin Hv. cbn [eval]. rewrite mk_mul_zero; [reflexivity|].
  apply existsb_exists. exists (eval v). split; [|exact Hv].
  apply in_map. exact Hin.
Qed.

Lemma eval_sum_zero (a b : expr) :
  is_zero (eval a) = true -> is_zero (eval b) = true ->
  is_zero (eval (add [a; b])) = true.
Proof.
  intros Ha Hb. cbn [eval map].
  rewrite (is_zero_eq _ Ha), (is_zero_eq _ Hb). reflexivity.
Qed.

Lemma eval_product_rule_zero (a a' b b' : expr) :
  is_zero (eval a') = true -> is_zero (eval b') = true ->
  is_zero (eval (add [mul [a'; b]; mul [a; b']])) = true.
Proof.
  intros Ha Hb. apply eval_sum_zero.
  - apply eval_mul_zero with (v := a'); [cbn [In]; auto | exact Ha].
  - apply eval_mul_zero with (v := b'); [cbn [In]; auto | exact Hb].
Qed.

Lemma dependence (x : expr) : dependence_laws K x.
Proof.
  constructor.
  - intros e a b Hk Hab Ha Hb.
    apply has_zero in Ha, Hb. apply has_zero.
    destruct e as [| |l|l| | | |]; try discriminate.
    + destruct l as [|a0 [|b0 [|c0 r]]];
        cbn [K k_getab getab rebuild] in Hab; injection Hab as <- <-.
      * exact Ha.
      * exact Ha.
      * apply (eval_sum_zero _ _ Ha Hb).
      * apply (eval_sum_zero _ _ Ha Hb).
    + destruct l as [|a0 [|b0 [|c0 r]]];
        cbn [K k_getab getab rebuild] in Hab; injection Hab as <- <-.
      * exact Ha.
      * exact Ha.
      * apply (eval_product_rule_zero _ _ _ _ Ha Hb).
      * apply (eval_product_rule_zero _ _ _ _ Ha Hb).
  - intros a b Hb Ha. apply has_zero in Ha. apply has_zero.
    destruct b; try discriminate. cbn [raw_diff].
    apply eval_mul_zero with (v := raw_diff a x); [cbn [In]; auto | exact Ha].
  - intros a Ha. apply has_zero in Ha. apply has_zero. cbn [raw_diff].
    apply eval_mul_zero with (v := raw_diff a x); [cbn [In]; auto | exact Ha].
  - intros a Ha. apply has_zero in Ha. apply has_zero. cbn [raw_diff].
    apply eval_mul_zero with (v := raw_diff a x); [cbn [In]; auto | exact Ha].
Qed.

End RefKernelFacts.

Lemma mrv_empty_iff_witness :
  ([symbol "x"] = [] <-> has RefKernel.K (symbol "x") (symbol "x") = false) /\
  mrv RefKernel.K 4 (exp (rational 2)) (symbol "x") = Ok [].
Proof.
  split.
  - apply (proj2 (mrv_empty_iff RefKernel.K (symbol "x")
                    (RefKernelFacts.dependence (symbol "x")) 3 (symbol "x"))).
    reflexivity.
  - apply (proj1 (mrv_empty_iff RefKernel.K (symbol "x")
                    (RefKernelFacts.dependence (symbol "x")) 3
                    (exp (rational 2)))).
    reflexivity.
Defined.

(** ** No duplicates in the mrv set *)

Section NoDuplicates.

Variable K : kernel.

Lemma member_app (y : expr) (a b : list expr) :
  member K y (a ++ b) = member K y a || member K y b.
Proof.
  induction a as [|z a IH]; simpl; [reflexivity|].
  destruct (k_eq K y z); [reflexivity | exact IH].
Qed.

Lemma member_filter (p : expr -> bool) (y : expr) (l : list expr) :
  member K y (filter p l) = true -> member K y l = true.
Proof.
  induction l as [|z l IH]; simpl; [auto|].
  destruct (p z); simpl; destruct (k_eq K y z); auto.
Qed.

Lemma filter_split (p : expr -> bool) (g pre post : list expr) (y : expr) :
  filter p g = pre ++ y :: post ->
  exists g1 g2, g = g1 ++ y :: g2 /\ filter p g1 = pre /\ p y = true.
Proof.
  revert pre; induction g as [|z g IH]; simpl; intros pre H.
  - destruct pre; discriminate.
  - destruct (p z) eqn:Hz.
    + destruct pre as [|z' pre]; simpl in H; injection H as -> H.
      * exists [], g. simpl. auto.
      * destruct (IH pre H) as (g1 & g2 & -> & <- & Hy).
        exists (z' :: g1), g2. simpl. rewrite Hz. auto.
    + destruct (IH pre H) as (g1 & g2 & -> & <- & Hy).
      exists (z :: g1), g2. simpl. rewrite Hz. auto.
Qed.

Lemma no_duplicates_nil : no_duplicates K [].
Proof. intros pre y post H. destruct pre; discriminate. Qed.

Lemma no_duplicates_single (a : expr) : no_duplicates K [a].
Proof.
  intros pre y post H. destruct pre as [|z pre]; [reflexivity|].
  destruct pre; discriminate.
Qed.

Lemma no_duplicates_union (f g : list expr) :
  no_duplicates K f -> no_duplicates K g -> no_duplicates K (union K f g).
Proof.
  intros Hf Hg pre y post H. rewrite union_filter in H.
  apply app_eq_app in H as (m & [[-> Hm] | [-> Hm]]).
  - destruct m as [|z m]; simpl in Hm.
    + rewrite app_nil_r in Hm.
      destruct (filter_split _ _ [] _ _ (eq_sym Hm))
        as (g1 & g2 & -> & Hg1 & Hy).
      apply negb_true_iff in Hy. exact Hy.
    + injection Hm as <- Hm. apply (Hf pre y m). reflexivity.
  - destruct (filter_split _ _ _ _ _ Hm) as (g1 & g2 & -> & <- & Hy).
    rewrite member_app. apply negb_true_iff in Hy. rewrite Hy. simpl.
    destruct (member K y (filter _ g1)) eqn:Hmem; [|reflexivity].
    apply member_filter in Hmem.
    rewrite (Hg g1 y g2 eq_refl) in Hmem. discriminate.
Qed.

Lemma no_duplicates_max (n : nat) (f g l : list expr) (x : expr) :
  max K n f g x = Ok l ->
  no_duplicates K f -> no_duplicates K g -> no_duplicates K l.
Proof.
  intros H Hf Hg. apply max_cases in H as [-> | [-> | ->]]; auto.
  apply no_duplicates_union; assumption.
Qed.

(** C9.  The list returned by [mrv(e, x)] has no duplicates: no element is
    [==] to an element before it. *)
Theorem mrv_no_duplicates (fuel : nat) (e x : expr) (l : list expr) :
  mrv K fuel e x = Ok l -> no_duplicates K l.
Proof.
  revert e l; induction fuel as [|n IH]; intros e l H; [discriminate|].
  rewrite mrv_eq in H.
  destruct (negb (has K e x)).
  { injection H as <-. apply no_duplicates_nil. }
  destruct (k_eq K e x).
  { injection H as <-. apply no_duplicates_single. }
  destruct e; try discriminate.
  - destruct (k_getab K (add args)) as [a b].
    inv_bind H. inv_bind H. eapply no_duplicates_max; eauto.
  - destruct (k_getab K (mul args)) as [a b].
    inv_bind H. inv_bind H. eapply no_duplicates_max; eauto.
  - destruct (is_number e2); [eauto | discriminate].
  - inv_bind H. destruct (k_eq K v infty); [|eauto].
    inv_bind H. eapply no_duplicates_max; eauto.
    apply no_duplicates_single.
  - eauto.
Qed.

End NoDuplicates.

Lemma mrv_no_duplicates_witness :
  no_duplicates RefKernel.K
    [exp (symbol "x"); exp (mul [rational (-1); symbol "x"])].
Proof.
  apply (mrv_no_duplicates RefKernel.K 40
           (add [exp (symbol "x"); exp (mul [rational (-1); symbol "x"])])
           (symbol "x")).
  vm_compute. reflexivity.
Defined.

(** ** The limit driver *)

Section Driver.

Variable K : kernel.

Lemma limitinf_eq (n : nat) (e x : expr) :
  limitinf K (S n) e x =
  if negb (has K e x) then Ok e
  else
    '(c0, e0) <- mrvleadterm K n e x None ;;
    sig <- sign K n e0 x ;;
    if sig =? 1 then Ok (rational 0)
    else if sig =? -1 then Ok infty
    else if sig =? 0 then
      match c0 with
      | kexpr c => limitinf K n c x
      | int0 => Err AttributeError
      end
    else Err ReturnsNone.
Proof. reflexivity. Qed.

Lemma mrvleadterm_eq (n : nat) (e x : expr) (Omega : option (list expr)) :
  mrvleadterm K (S n) e x Omega =
  let e := k_eval K e in
  if negb (has K e x) then Ok (kexpr e, rational 0)
  else
    Omega <- match Omega with
             | None => mrv K n e x
             | Some Omega => Ok Omega
             end ;;
    if member K x Omega then
      r <- mrvleadterm K n (k_eval K (k_subs K e x (exp x))) x
             (Some (moveup K Omega x)) ;;
      movedown_pair K r x
    else
      let wsym := mrvleadterm_wsym in
      f <- rewrite K n e Omega x wsym ;;
      leadterm K f wsym.
Proof. reflexivity. Qed.

(** A value returned by [limitinf] is 0, [infty], or an expression that
    [has] finds free of [x]. *)
Lemma limitinf_value (fuel : nat) (e x v : expr) :
  limitinf K fuel e x = Ok v ->
  v = rational 0 \/ v = infty \/ has K v x = false.
Proof.
  revert e; induction fuel as [|n IH]; intros e H; [discriminate|].
  rewrite limitinf_eq in H.
  destruct (has K e x) eqn:Hhas; simpl in H.
  2: { injection H as <-. auto. }
  inv_bind H. destruct v0 as [c0 e0]. inv_bind H.
  destruct (v0 =? 1); [injection H as <-; auto|].
  destruct (v0 =? -1); [injection H as <-; auto|].
  destruct (v0 =? 0); [|discriminate].
  destruct c0; [discriminate | eauto].
Qed.

(** C1, as the code has it.  For every limit point [z0], [infty] included,
    [limit(e, z, z0)] is [limitinf] of [e] with [z0 + 1/x] substituted for
    [z], taken in [x], where [x] is the symbol named "x"; a value it returns
    is 0, [infty] or free of that [x]. *)
Theorem limit_substitutes_z0_plus_inverse (fuel : nat) (e z z0 : expr) :
  limit K fuel e z z0 =
    limitinf K fuel
      (k_subs K e z (add [z0; mul [rational 1;
                                   pow (symbol "x") (rational (-1))]]))
      (symbol "x") /\
  (forall v, limit K fuel e z z0 = Ok v ->
             v = rational 0 \/ v = infty \/ has K v (symbol "x") = false).
Proof.
  split; [reflexivity|].
  intros v H. unfold limit in H. eapply limitinf_value; eauto.
Qed.

(** C2, as the code has it.  When [e] depends on [x], [mrvleadterm(e, x)]
    is [(c0, e0)] and [sign(e0, x)] is [sig], then [sig] is 1, -1 or 0 and
    [limitinf(e, x)] is 0 for [sig = 1], is [infty] for [sig = -1] whatever
    [c0] is, and is [limitinf(c0, x)] for [sig = 0] (a call that fails on
    [c0.diff] when [c0] is the int 0 of [leadterm]'s initial pair). *)
Theorem limitinf_cases (n : nat) (e x : expr) (c0 : coefficient)
  (e0 : expr) (sig : Z) :
  has K e x = true ->
  mrvleadterm K n e x None = Ok (c0, e0) ->
  sign K n e0 x = Ok sig ->
  (sig = 1 \/ sig = -1 \/ sig = 0) /\
  (sig = 1 -> limitinf K (S n) e x = Ok (rational 0)) /\
  (sig = -1 -> limitinf K (S n) e x = Ok infty) /\
  (sig = 0 ->
   limitinf K (S n) e x =
   match c0 with
   | kexpr c => limitinf K n c x
   | int0 => Err AttributeError
   end).
Proof.
  intros Hhas Hlead Hsig. rewrite limitinf_eq, Hhas, Hlead. simpl.
  rewrite Hsig. simpl.
  split; [eapply sign_range; eauto|].
  repeat split; intros ->; reflexivity.
Qed.

(** C8, as the code has it.  Every invocation of [mrvleadterm] that
    reaches [rewrite] -- the calls of [limitinf] and [rewrite], which leave
    [Omega] out and so take [mrv(e, x)], and the call of the moveup branch,
    which passes [Omega] -- hands to [rewrite] and to [leadterm] the symbol
    named "w", whatever the expression and the fuel; and the symbol [limit]
    substitutes and takes the limit in is the symbol named "x". *)
Theorem symbols_are_fixed_names (n : nat) (e x : expr)
  (o : option (list expr)) (Omega : list expr) :
  has K (k_eval K e) x = true ->
  match o with
  | None => mrv K n (k_eval K e) x = Ok Omega
  | Some given => given = Omega
  end ->
  member K x Omega = false ->
  mrvleadterm K (S n) e x o =
    (f <- rewrite K n (k_eval K e) Omega x (symbol "w") ;;
     leadterm K f (symbol "w")) /\
  (forall e' z z0,
     limit K n e' z z0 =
     limitinf K n (k_subs K e' z (e_add z0 (e_div (rational 1) (symbol "x"))))
       (symbol "x")).
Proof.
  intros Hhas Ho Hmem. split; [|reflexivity].
  rewrite mrvleadterm_eq. cbv zeta. rewrite Hhas. simpl.
  destruct o as [given|]; [subst given | rewrite Ho]; simpl;
    rewrite Hmem; reflexivity.
Qed.

End Driver.

Lemma limit_substitutes_z0_plus_inverse_witness :
  rational 0 = rational 0 \/ rational 0 = infty \/
  has RefKernel.K (rational 0) (symbol "x") = false.
Proof.
  apply (limit_substitutes_z0_plus_inverse RefKernel.K 12
           (symbol "z") (symbol "z") (rational 0)).
  vm_compute. reflexivity.
Defined.

(** At [z0 = infty] the expression handed to [limitinf] is [infty + 1/x],
    not a renaming of [e]; and since the [x] of [limit] is the symbol named
    "x", [limit(x, z, infty)] is the limit of [x] in [x], while
    [limitinf(x, z)] is [x]. *)
Lemma limit_at_infty_is_not_limitinf :
  k_subs RefKernel.K (symbol "z") (symbol "z")
    (e_add infty (e_div (rational 1) (symbol "x")))
    = add [infty; pow (symbol "x") (rational (-1))] /\
  limit RefKernel.K 12 (symbol "x") (symbol "z") infty = Ok infty /\
  limitinf RefKernel.K 12 (symbol "x") (symbol "z") = Ok (symbol "x") /\
  limit RefKernel.K 12 (symbol "x") (symbol "z") infty
    <> limitinf RefKernel.K 12 (symbol "x") (symbol "z").
Proof.
  repeat split; try (vm_compute; reflexivity).
  vm_compute. discriminate.
Qed.

Lemma limitinf_cases_witness :
  (-1 = 1 \/ -1 = -1 \/ -1 = 0) /\
  (-1 = 1 ->
   limitinf RefKernel.K 12 (mul [rational (-1); symbol "x"]) (symbol "x")
     = Ok (rational 0)) /\
  (-1 = -1 ->
   limitinf RefKernel.K 12 (mul [rational (-1); symbol "x"]) (symbol "x")
     = Ok infty) /\
  (-1 = 0 ->
   limitinf RefKernel.K 12 (mul [rational (-1); symbol "x"]) (symbol "x")
     = limitinf RefKernel.K 11 (rational (-1)) (symbol "x")).
Proof.
  apply (limitinf_cases RefKernel.K 11 (mul [rational (-1); symbol "x"])
           (symbol "x") (kexpr (rational (-1))) (rational (-1)) (-1));
    vm_compute; reflexivity.
Defined.

(** For [-x] the leading term is [(-1, -1)]: the exponent is negative and
    the coefficient is negative, yet [limitinf] returns the same [infty] as
    for [x], whose coefficient is positive. *)
Lemma limitinf_drops_the_sign_of_c0 :
  mrvleadterm RefKernel.K 11 (mul [rational (-1); symbol "x"]) (symbol "x")
    None = Ok (kexpr (rational (-1)), rational (-1)) /\
  sign RefKernel.K 11 (rational (-1)) (symbol "x") = Ok (-1) /\
  limitinf RefKernel.K 12 (mul [rational (-1); symbol "x"]) (symbol "x")
    = Ok infty /\
  limitinf RefKernel.K 12 (mul [rational (-1); symbol "x"]) (symbol "x")
    <> Ok (infty_with_sign (-1)) /\
  mrvleadterm RefKernel.K 11 (symbol "x") (symbol "x") None
    = Ok (kexpr (rational 1), rational (-1)) /\
  limitinf RefKernel.K 12 (symbol "x") (symbol "x") = Ok infty.
Proof.
  repeat split; try (vm_compute; reflexivity).
  vm_compute. discriminate.
Qed.

Lemma symbols_are_fixed_names_witness :
  mrvleadterm RefKernel.K 12 (exp (symbol "x")) (symbol "x") None =
  (f <- rewrite RefKernel.K 11 (k_eval RefKernel.K (exp (symbol "x")))
          [exp (symbol "x")] (symbol "x") (symbol "w") ;;
   leadterm RefKernel.K f (symbol "w")).
Proof.
  apply (symbols_are_fixed_names RefKernel.K 11 (exp (symbol "x"))
           (symbol "x") None [exp (symbol "x")]); vm_compute; reflexivity.
Defined.

(** The symbol handed to [rewrite] occurs in [w * exp(w)], and the limit of
    that expression in [w] comes out as 1, while the same expression written
    with [x] has the limit [infty]. *)
Lemma symbol_w_is_not_fresh :
  occurs mrvleadterm_wsym (mul [symbol "w"; exp (symbol "w")]) = true /\
  limitinf RefKernel.K 12 (mul [symbol "w"; exp (symbol "w")]) (symbol "w")
    = Ok (rational 1) /\
  limitinf RefKernel.K 12 (mul [symbol "x"; exp (symbol "x")]) (symbol "x")
    = Ok infty.
Proof. repeat split; vm_compute; reflexivity. Qed.

(** ** Sorting with a comparison that can fail *)

Section Sorting.

Variable cmp : expr -> expr -> result Z.
Variable R : expr -> expr -> Prop.

Hypothesis R_trans : forall a b c, R a b -> R b c -> R a c.
Hypothesis cmp_before :
  forall a b c, cmp a b = Ok c -> (c <? 0) = true -> R a b.
Hypothesis cmp_after :
  forall a b c, cmp a b = Ok c -> (c <? 0) = false -> R b a.

Lemma insert_cmp_sorted (p : expr) (s r : list expr) :
  StronglySorted R s -> insert_cmp cmp p s = Ok r ->
  StronglySorted R r /\ Permutation (p :: s) r.
Proof.
  revert r; induction s as [|q rest IH]; simpl; intros r Hs H.
  - injection H as <-. split; [repeat constructor | reflexivity].
  - inv_bind H. apply StronglySorted_inv in Hs as [Hrest Hq].
    destruct (v <? 0) eqn:Hc.
    + injection H as <-. split; [|reflexivity].
      constructor; [constructor; assumption|].
      constructor; [eapply cmp_before; eauto|].
      eapply Forall_impl; [|exact Hq]. intros y Hy.
      eapply R_trans; [eapply cmp_before; eauto | exact Hy].
    + inv_bind H. injection H as <-.
      destruct (IH v0 Hrest Hv0) as [Hsorted Hperm]. split.
      * constructor; [assumption|].
        eapply Permutation_Forall; [exact Hperm|].
        constructor; [eapply cmp_after; eauto | assumption].
      * rewrite perm_swap. constructor. exact Hperm.
Qed.

Lemma sort_from_sorted (s l r : list expr) :
  StronglySorted R s -> sort_from cmp s l = Ok r ->
  StronglySorted R r /\ Permutation (s ++ l) r.
Proof.
  revert s r; induction l as [|a l IH]; simpl; intros s r Hs H.
  - injection H as <-. rewrite app_nil_r. split; [assumption | reflexivity].
  - inv_bind H. destruct (insert_cmp_sorted a s v Hs Hv) as [Hv1 Hv2].
    destruct (IH v r Hv1 H) as [Hr1 Hr2]. split; [assumption|].
    rewrite <- Hr2. rewrite <- Hv2.
    symmetry. apply Permutation_middle.
Qed.

Lemma sort_cmp_sorted (l r : list expr) :
  sort_cmp cmp l = Ok r -> StronglySorted R r /\ Permutation l r.
Proof.
  intros H. apply (sort_from_sorted [] l r); [constructor | exact H].
Qed.

End Sorting.

(** ** The rewriter *)

Section Rewriter.

Variable K : kernel.

Lemma rewrite_eq (n : nat) (e : expr) (Omega : list expr) (x wsym : expr) :
  rewrite K (S n) e Omega x wsym =
  (_ <- rewrite_entry Omega ;;
   Omega <- sort_cmp (fun a b =>
                        la <- mrv K n a x ;; lb <- mrv K n b x ;;
                        Ok (- py_cmp (length la) (length lb))) Omega ;;
   g_arg <- attr_arg (last Omega infty) ;;
   sg <- sign K n g_arg x ;;
   let wsym := if sg =? 1 then e_div (rational 1) wsym else wsym in
   O2 <- mapM (fun f =>
                 f_arg <- attr_arg f ;;
                 c <- mrvleadterm K n (e_div f_arg g_arg) x None ;;
                 _ <- assert_ 192 (k_eq K (snd c) (rational 0)) ;;
                 Ok (rewrite_term K f_arg g_arg wsym (operand (fst c))))
              Omega ;;
   Ok (subs_all K e (combine Omega O2))).
Proof. reflexivity. Qed.

Lemma mrv_size_ge_trans (n : nat) (x a b c : expr) :
  mrv_size_ge K n x a b -> mrv_size_ge K n x b c -> mrv_size_ge K n x a c.
Proof.
  intros (la & lb & Ha & Hb & Hab) (lb' & lc & Hb' & Hc & Hbc).
  rewrite Hb in Hb'. injection Hb' as <-.
  exists la, lc. repeat split; try assumption. lia.
Qed.

Lemma py_cmp_neg_lt (a b : nat) :
  (- py_cmp a b <? 0) = true -> (b <= a)%nat.
Proof.
  unfold py_cmp. destruct (Nat.compare_spec a b); simpl; try discriminate.
  intros _. lia.
Qed.

Lemma py_cmp_neg_ge (a b : nat) :
  (- py_cmp a b <? 0) = false -> (a <= b)%nat.
Proof.
  unfold py_cmp. destruct (Nat.compare_spec a b); simpl; try discriminate;
    intros _; lia.
Qed.

Lemma Forall_Forall2 {A B} (P : A -> Prop) (Q : A -> B -> Prop)
  (l : list A) (l' : list B) :
  Forall P l -> Forall2 Q l l' -> Forall2 (fun a b => P a /\ Q a b) l l'.
Proof.
  intros HP HQ. induction HQ; [constructor|].
  inversion HP; subst. constructor; auto.
Qed.

Lemma last_in (l : list expr) (d : expr) : l <> [] -> In (last l d) l.
Proof.
  induction l as [|a l IH]; [congruence|]. intros _.
  destruct l as [|b l]; [left; reflexivity|].
  right. apply IH. discriminate.
Qed.

(** C3.  When [rewrite(e, Omega, x, w)] returns, it has sorted [Omega] by
    the size of [mrv(t, x)], descending, and taken the last element [g] of
    the sorted list as the representative; its substitution variable [v] is
    [1/w] exactly when [sign(arg(g), x)] is 1 and [w] otherwise; and the
    result is [e] with every [f = exp(u)] of [Omega] substituted, in sorted
    order, by the canonical form of [exp(u - c*arg(g)) * v**c], where
    [mrvleadterm(u/arg(g), x)] is [(c, e0)] with [e0 == 0] (as an operand
    [c] is the number it denotes, also when it is the int 0 of [leadterm]'s
    initial pair). *)
Theorem rewrite_structure (n : nat) (e x w r : expr) (Omega : list expr) :
  rewrite K (S n) e Omega x w = Ok r ->
  exists (sorted : list expr) (u_g : expr) (sg : Z) (O2 : list expr),
    Permutation Omega sorted /\
    StronglySorted (mrv_size_ge K n x) sorted /\
    last sorted infty = exp u_g /\
    sign K n u_g x = Ok sg /\
    Forall2
      (fun f b =>
         exists u c e0,
           f = exp u /\
           mrvleadterm K n (e_div u u_g) x None = Ok (c, e0) /\
           k_eq K e0 (rational 0) = true /\
           b = k_eval K
                 (e_mul (exp (e_sub u (e_mul (operand c) u_g)))
                        (e_pow (if sg =? 1 then e_div (rational 1) w else w)
                               (operand c))))
      sorted O2 /\
    r = fold_left (fun f ab => k_subs K f (fst ab) (snd ab))
                  (combine sorted O2) e.
Proof.
  intros H. rewrite rewrite_eq in H.
  apply bind_ok in H as ([] & Hentry & H).
  apply bind_ok in H as (sorted & Hsort & H).
  apply bind_ok in H as (u_g & Hlast & H).
  apply bind_ok in H as (sg & Hsg & H).
  cbv zeta in H.
  apply bind_ok in H as (O2 & HO2 & H).
  injection H as <-.
  unfold rewrite_entry in Hentry.
  apply bind_ok in Hentry as ([] & Hexp & Hlen).
  apply assert_ok in Hlen. apply assert_all_exp_ok in Hexp.
  apply (sort_cmp_sorted _ (mrv_size_ge K n x)) in Hsort as [Hsorted Hperm].
  2: { apply mrv_size_ge_trans. }
  2: { intros a b c Hc Hneg. inv_bind Hc. inv_bind Hc. injection Hc as <-.
       exists v, v0. repeat split; try assumption.
       apply py_cmp_neg_lt. exact Hneg. }
  2: { intros a b c Hc Hneg. inv_bind Hc. inv_bind Hc. injection Hc as <-.
       exists v0, v. repeat split; try assumption.
       apply py_cmp_neg_ge. exact Hneg. }
  assert (Hexp' : Forall (fun t => is_exp t = true) sorted).
  { eapply Permutation_Forall; eauto. }
  assert (Hne : sorted <> []).
  { intros ->. apply Permutation_sym, Permutation_nil in Hperm.
    subst Omega. discriminate. }
  assert (Hg : last sorted infty = exp u_g).
  { pose proof (last_in sorted infty Hne) as Hin.
    rewrite Forall_forall in Hexp'. apply Hexp' in Hin.
    destruct (last sorted infty); try discriminate.
    simpl in Hlast. injection Hlast as <-. reflexivity. }
  exists sorted, u_g, sg, O2. repeat split; try assumption.
  apply mapM_ok in HO2.
  eapply Forall2_impl; [|exact (Forall_Forall2 _ _ _ _ Hexp' HO2)].
  intros f b [Hf Hb]. cbv beta in Hb.
  destruct f; try discriminate. simpl in Hb.
  inv_bind Hb. destruct v as [c e0]. inv_bind Hb. injection Hb as <-.
  apply assert_ok in Hv0.
  exists f, c, e0. repeat split; assumption.
Qed.

End Rewriter.

Lemma rewrite_structure_witness :
  exists (sorted : list expr) (u_g : expr) (sg : Z) (O2 : list expr),
    Permutation [exp (symbol "x"); exp (mul [rational (-1); symbol "x"])]
                sorted /\
    StronglySorted (mrv_size_ge RefKernel.K 11 (symbol "x")) sorted /\
    last sorted infty = exp u_g /\
    sign RefKernel.K 11 u_g (symbol "x") = Ok sg /\
    Forall2
      (fun f b =>
         exists u c e0,
           f = exp u /\
           mrvleadterm RefKernel.K 11 (e_div u u_g) (symbol "x") None
             = Ok (c, e0) /\
           k_eq RefKernel.K e0 (rational 0) = true /\
           b = k_eval RefKernel.K
                 (e_mul (exp (e_sub u (e_mul (operand c) u_g)))
                        (e_pow (if sg =? 1
                                then e_div (rational 1) (symbol "w")
                                else symbol "w") (operand c))))
      sorted O2 /\
    add [pow (symbol "w") (rational (-1)); symbol "w"] =
      fold_left (fun f ab => k_subs RefKernel.K f (fst ab) (snd ab))
                (combine sorted O2)
                (add [exp (symbol "x");
                      exp (mul [rational (-1); symbol "x"])]).
Proof.
  apply (rewrite_structure RefKernel.K 11
           (add [exp (symbol "x"); exp (mul [rational (-1); symbol "x"])])
           (symbol "x") (symbol "w")).
  vm_compute. reflexivity.
Defined.

(** ** The leading term *)

Section Leadterm.

Variable K : kernel.
Hypothesis lt_numbers : order_law K.







End Leadterm.

Lemma ref_kernel_order : order_law RefKernel.K.
Proof.
  intros p q. simpl. unfold RefKernel.lt, Qlt. apply Z.ltb_lt.
Qed.



(** ** An element of [Omega] left in the result of [rewrite] *)


(** ** More fuel does not change a result *)

Section Fuel.

Variable K : kernel.

Lemma mapM_mono {A B} (f g : A -> result B) (l : list A) (bs : list B) :
  (forall a b, f a = Ok b -> g a = Ok b) ->
  mapM f l = Ok bs -> mapM g l = Ok bs.
Proof.
  intros Hfg. revert bs; induction l as [|a l IH]; simpl; intros bs H.
  - exact H.
  - inv_bind H. inv_bind H. injection H as <-.
    rewrite (Hfg _ _ Hv), (IH _ Hv0). reflexivity.
Qed.

Lemma insert_cmp_mono (cmp cmp' : expr -> expr -> result Z) (p : expr)
  (s r : list expr) :
  (forall a b c, cmp a b = Ok c -> cmp' a b = Ok c) ->
  insert_cmp cmp p s = Ok r -> insert_cmp cmp' p s = Ok r.
Proof.
  intros Hc. revert r; induction s as [|q s IH]; simpl; intros r H.
  - exact H.
  - inv_bind H. rewrite (Hc _ _ _ Hv). simpl.
    destruct (v <? 0); [exact H|].
    inv_bind H. injection H as <-. rewrite (IH _ Hv0). reflexivity.
Qed.

Lemma sort_from_mono (cmp cmp' : expr -> expr -> result Z)
  (s l r : list expr) :
  (forall a b c, cmp a b = Ok c -> cmp' a b = Ok c) ->
  sort_from cmp s l = Ok r -> sort_from cmp' s l = Ok r.
Proof.
  intros Hc. revert s r; induction l as [|a l IH]; simpl; intros s r H.
  - exact H.
  - inv_bind H. rewrite (insert_cmp_mono cmp cmp' a s v Hc Hv). simpl.
    apply IH. exact H.
Qed.

Lemma sign_fuel (n m : nat) (e x : expr) (s : Z) :
  (n <= m)%nat -> sign K n e x = Ok s -> sign K m e x = Ok s.
Proof.
  revert m e s; induction n as [|n IH]; intros m e s Hle H; [discriminate|].
  destruct m as [|m]; [lia|]. assert (Hnm : (n <= m)%nat) by lia.
  simpl in *. destruct e; try exact H.
  all: destruct (k_eq K _ x); try exact H.
  - destruct (k_getab K (mul args)) as [a b].
    inv_bind H. inv_bind H.
    rewrite (IH m _ _ Hnm Hv), (IH m _ _ Hnm Hv0). exact H.
  - inv_bind H. rewrite (IH m _ _ Hnm Hv). exact H.
Qed.

Lemma compare_eq (n : nat) (a b x : expr) :
  compare K (S n) a b x =
  (c <- limitinf K n (e_div (ln a) (ln b)) x ;;
   if k_eq K c (rational 0) then Ok Lt
   else if k_eq K c infty then Ok Gt
   else Ok Eq).
Proof. reflexivity. Qed.

Lemma stable (n : nat) : stable_at K n.
Proof.
  induction n as [|n IH]; intros m Hle.
  { repeat split; intros; discriminate. }
  destruct m as [|m]; [lia|]. assert (Hnm : (n <= m)%nat) by lia.
  destruct (IH m Hnm) as (Hlim & Hlead & Hrew & Hmrv & Hmax & Hcmp).
  pose proof (sign_fuel n m) as Hsign.
  repeat split.
  - intros e x v H. rewrite limitinf_eq in *.
    destruct (negb (has K e x)); [exact H|].
    apply bind_ok in H as ([c0 e0] & Hl & H).
    rewrite (Hlead _ _ _ _ Hl). simpl.
    apply bind_ok in H as (sg & Hs & H).
    rewrite (Hsign _ _ _ Hnm Hs). simpl.
    destruct (sg =? 1); [exact H|].
    destruct (sg =? -1); [exact H|].
    destruct (sg =? 0); [|exact H].
    destruct c0; [exact H | auto].
  - intros e x o v H. rewrite mrvleadterm_eq in *. cbv zeta in *.
    destruct (negb (has K (k_eval K e) x)); [exact H|].
    apply bind_ok in H as (Omega & HO & H).
    assert (Ho : match o with
                 | Some Omega => Ok Omega
                 | None => mrv K m (k_eval K e) x
                 end = Ok Omega).
    { destruct o; [exact HO | auto]. }
    rewrite Ho. simpl.
    destruct (member K x Omega).
    + apply bind_ok in H as (r & Hr & H).
      rewrite (Hlead _ _ _ _ Hr). exact H.
    + apply bind_ok in H as (f & Hf & H).
      rewrite (Hrew _ _ _ _ _ Hf). exact H.
  - intros e Omega x w v H. rewrite rewrite_eq in *.
    apply bind_ok in H as (u & Hu & H). rewrite Hu. simpl.
    apply bind_ok in H as (sorted & Hsort & H).
    unfold sort_cmp in *.
    assert (Hsort' :
              sort_from (fun a b => la <- mrv K m a x ;; lb <- mrv K m b x ;;
                                    Ok (- py_cmp (length la) (length lb)))
                        [] Omega = Ok sorted).
    { eapply sort_from_mono; [|exact Hsort]. intros a b c Hc.
      apply bind_ok in Hc as (la & Hla & Hc).
      apply bind_ok in Hc as (lb & Hlb & Hc).
      rewrite (Hmrv _ _ _ Hla), (Hmrv _ _ _ Hlb). exact Hc. }
    rewrite Hsort'. simpl. apply bind_ok in H as (g_arg & Hg & H). rewrite Hg. simpl.
    apply bind_ok in H as (sg & Hs & H).
    rewrite (Hsign _ _ _ Hnm Hs). simpl.
    cbv zeta in *. apply bind_ok in H as (O2 & HO2 & H).
    erewrite mapM_mono; [exact H | | exact HO2].
    intros f b Hf. cbv beta in *.
    apply bind_ok in Hf as (f_arg & Hfa & Hf). rewrite Hfa. simpl.
    apply bind_ok in Hf as (c & Hc & Hf).
    rewrite (Hlead _ _ _ _ Hc). exact Hf.
  - intros e x v H. rewrite mrv_eq in *.
    destruct (negb (has K e x)); [exact H|].
    destruct (k_eq K e x); [exact H|].
    destruct e; try exact H.
    + destruct (k_getab K (add args)) as [a b].
      apply bind_ok in H as (la & Hla & H).
      apply bind_ok in H as (lb & Hlb & H).
      rewrite (Hmrv _ _ _ Hla), (Hmrv _ _ _ Hlb). simpl. auto.
    + destruct (k_getab K (mul args)) as [a b].
      apply bind_ok in H as (la & Hla & H).
      apply bind_ok in H as (lb & Hlb & H).
      rewrite (Hmrv _ _ _ Hla), (Hmrv _ _ _ Hlb). simpl. auto.
    + destruct (is_number e2); [auto | exact H].
    + apply bind_ok in H as (l & Hl & H).
      rewrite (Hlim _ _ _ Hl). simpl.
      destruct (k_eq K l infty); [|auto].
      apply bind_ok in H as (l' & Hl' & H).
      rewrite (Hmrv _ _ _ Hl'). simpl. auto.
    + auto.
  - intros f g x v H. rewrite max_eq in *.
    destruct f as [|f0 f]; [exact H|].
    destruct g as [|g0 g]; [exact H|].
    destruct (intersect K _ _); [exact H|].
    destruct (member K x (f0 :: f)); [exact H|].
    destruct (member K x (g0 :: g)); [exact H|].
    apply bind_ok in H as (c & Hc & H).
    rewrite (Hcmp _ _ _ _ Hc). exact H.
  - intros a b x v H. rewrite compare_eq in *.
    apply bind_ok in H as (c & Hc & H).
    rewrite (Hlim _ _ _ Hc). exact H.
Qed.

(** A value returned by [limitinf] with some fuel is returned with any
    larger fuel. *)
Lemma limitinf_fuel (n m : nat) (e x v : expr) :
  (n <= m)%nat -> limitinf K n e x = Ok v -> limitinf K m e x = Ok v.
Proof. intros Hle. apply (stable n m Hle). Qed.

End Fuel.

(** ** Evaluations on the reference kernel, for any larger fuel *)

Lemma limitinf_of_minus_x (n : nat) :
  (12 <= n)%nat ->
  limitinf RefKernel.K n (mul [rational (-1); symbol "x"]) (symbol "x")
    = Ok infty.
Proof.
  intros Hle. apply (limitinf_fuel RefKernel.K 12 n); [exact Hle|].
  vm_compute. reflexivity.
Qed.

Lemma limit_of_x_in_z (n : nat) :
  (12 <= n)%nat ->
  limit RefKernel.K n (symbol "x") (symbol "z") infty = Ok infty /\
  limitinf RefKernel.K n (symbol "x") (symbol "z") = Ok (symbol "x").
Proof.
  intros Hle. split.
  - unfold limit. apply (limitinf_fuel RefKernel.K 12 n); [exact Hle|].
    vm_compute. reflexivity.
  - apply (limitinf_fuel RefKernel.K 12 n); [exact Hle|].
    vm_compute. reflexivity.
Qed.

Lemma limitinf_of_w_exp_w (n : nat) :
  (12 <= n)%nat ->
  limitinf RefKernel.K n (mul [symbol "w"; exp (symbol "w")]) (symbol "w")
    = Ok (rational 1) /\
  limitinf RefKernel.K n (mul [symbol "x"; exp (symbol "x")]) (symbol "x")
    = Ok infty.
Proof.
  intros Hle.
  split; (apply (limitinf_fuel RefKernel.K 12 n); [exact Hle|]);
    vm_compute; reflexivity.
Qed.

(** * Further properties of [limits.py] *)

(** ** [member], [intersect] and [union] *)

Section Lists.

Variable K : kernel.

Lemma member_iff (y : expr) (l : list expr) :
  member K y l = true <-> exists z, In z l /\ k_eq K y z = true.
Proof.
  induction l as [|z l IH]; simpl.
  - split; [discriminate | intros (z & [] & _)].
  - destruct (k_eq K y z) eqn:Hyz.
    + split; [|reflexivity]. intros _. exists z. auto.
    + rewrite IH. split.
      * intros (z' & Hin & Hz'). exists z'. auto.
      * intros (z' & [<-|Hin] & Hz'); [congruence|]. exists z'. auto.
Qed.

(** X1.  [intersect(a, b)] is true exactly when some element of [a] is [==]
    to some element of [b], the element of [a] being the left operand; with
    an empty list on either side it is false. *)
Theorem intersect_iff (a b : list expr) :
  (intersect K a b = true <->
   exists y z, In y a /\ In z b /\ k_eq K y z = true) /\
  intersect K a [] = false /\
  intersect K [] b = false.
Proof.
  split; [|split; [|reflexivity]].
  - induction a as [|y a IH]; simpl.
    + split; [discriminate | intros (y & z & [] & _)].
    + destruct (member K y b) eqn:Hy.
      * split; [|reflexivity]. intros _.
        apply member_iff in Hy as (z & Hz & Hyz). exists y, z. auto.
      * rewrite IH. split.
        -- intros (y' & z & Hy' & Hz & Hyz). exists y', z. auto.
        -- intros (y' & z & [<-|Hy'] & Hz & Hyz).
           ++ assert (Hm : member K y b = true)
                by (apply member_iff; exists z; auto).
              congruence.
           ++ exists y', z. auto.
  - induction a as [|y a IH]; simpl; [reflexivity | exact IH].
Qed.

Lemma filter_all_false {A} (p : A -> bool) (l : list A) :
  (forall y, In y l -> p y = false) -> filter p l = [].
Proof.
  induction l as [|z l IH]; simpl; intros H; [reflexivity|].
  rewrite (H z (or_introl eq_refl)). apply IH. intros y Hy. apply H. auto.
Qed.

(** X2.  [union(a, b)] is [a] followed by the elements of [b] that are not
    members of [a], in the order they have in [b]: the first [len(a)]
    elements of the result are those of [a], position by position (so its
    element 0 is [a[0]] when [a] is not empty), and the rest is [b] with the
    members of [a] filtered out.  Its elements are those of [a] and those
    elements of [b] that are not members of [a].  Hence [union([], b)] is
    [b] as it stands (duplicates inside [b] are not removed), [union(a, [])]
    is [a], and [union(a, b)] is [a] when every element of [b] is a member
    of [a]. *)
Theorem union_contents (a b : list expr) :
  (forall y, In y (union K a b) <->
             In y a \/ (In y b /\ member K y a = false)) /\
  union K [] b = b /\
  union K a [] = a /\
  ((forall y, In y b -> member K y a = true) -> union K a b = a) /\
  union K a b = a ++ filter (fun y => negb (member K y a)) b /\
  (forall i, (i < length a)%nat ->
             nth_error (union K a b) i = nth_error a i) /\
  (forall d, a <> [] -> hd d (union K a b) = hd d a) /\
  (forall i, nth_error (union K a b) (length a + i) =
             nth_error (filter (fun y => negb (member K y a)) b) i).
Proof.
  rewrite !union_filter. split; [|split; [|split; [|split; [|split;
    [|split; [|split]]]]]].
  - intros y. split.
    + intros Hin. apply in_app_or in Hin as [Hin|Hin]; [auto|].
      apply filter_In in Hin as [Hin Hp]. apply negb_true_iff in Hp. auto.
    + intros [Hin|[Hin Hm]]; apply in_or_app; [auto|].
      right. apply filter_In. rewrite Hm. auto.
  - simpl.
    induction b as [|z b IH]; simpl; [reflexivity|]. rewrite IH.
    reflexivity.
  - simpl. apply app_nil_r.
  - intros Hall. rewrite filter_all_false; [apply app_nil_r|].
    intros y Hy. rewrite (Hall y Hy). reflexivity.
  - reflexivity.
  - intros i Hi. apply nth_error_app1. exact Hi.
  - intros d Ha. destruct a; [congruence | reflexivity].
  - intros i. rewrite nth_error_app2 by lia.
    replace (length a + i - length a)%nat with i by lia. reflexivity.
Qed.

End Lists.

Lemma union_contents_witness :
  union RefKernel.K [symbol "x"] [symbol "x"] = [symbol "x"] /\
  nth_error (union RefKernel.K [symbol "x"] [symbol "x"]) 0
    = nth_error [symbol "x"] 0 /\
  hd infty (union RefKernel.K [symbol "x"] [symbol "x"])
    = hd infty [symbol "x"].
Proof.
  destruct (union_contents RefKernel.K [symbol "x"] [symbol "x"])
    as (_ & _ & _ & Hall & _ & Hnth & Hhd & _).
  split; [|split].
  - apply Hall. intros y [<-|[]]. reflexivity.
  - apply Hnth. simpl. lia.
  - apply Hhd. discriminate.
Defined.

(** ** [max] *)

Section Max.

Variable K : kernel.

(** X3.  Whatever [max(f, g, x)] returns consists of elements of [f] and of
    [g] only, contains [f] or [g] entirely, and is empty only when both [f]
    and [g] are empty. *)
Theorem max_contents (n : nat) (f g l : list expr) (x : expr) :
  max K n f g x = Ok l ->
  (forall y, In y l -> In y f \/ In y g) /\
  ((forall y, In y f -> In y l) \/ (forall y, In y g -> In y l)) /\
  (l = [] -> f = [] /\ g = []).
Proof.
  intros H. split; [|split].
  - intros y Hy. apply max_cases in H as [-> | [-> | ->]]; auto.
    rewrite union_filter in Hy. apply in_app_or in Hy as [Hy|Hy]; [auto|].
    apply filter_In in Hy as [Hy _]. auto.
  - apply max_cases in H as [-> | [-> | ->]]; auto.
    left. intros y Hy. rewrite union_filter. apply in_or_app. auto.
  - intros ->. eapply max_nil; eauto.
Qed.

(** X4.  [max] compares two representatives, and so computes a limit, only
    when both lists are nonempty, do not intersect and neither contains [x]:
    in every other case it returns at once, with fuel for this one call and
    with the same result for any fuel -- the other list when one is empty,
    the [union] when the lists intersect, and otherwise the list that does
    not contain [x]. *)
Theorem max_without_compare (n : nat) (f g : list expr) (x : expr) :
  f = [] \/ g = [] \/ intersect K f g = true \/
  member K x f = true \/ member K x g = true ->
  max K (S n) f g x = max K 1 f g x /\
  max K 1 f g x =
    Ok (match f, g with
        | [], _ => g
        | _, [] => f
        | _, _ => if intersect K f g then union K f g
                  else if member K x f then g else f
        end).
Proof.
  intros H. rewrite !max_eq.
  destruct f as [|f0 f]; [split; reflexivity|].
  destruct g as [|g0 g]; [split; reflexivity|].
  destruct (intersect K (f0 :: f) (g0 :: g)); [split; reflexivity|].
  destruct (member K x (f0 :: f)); [split; reflexivity|].
  destruct (member K x (g0 :: g)); [split; reflexivity|].
  destruct H as [H|[H|[H|[H|H]]]]; discriminate.
Qed.

End Max.

Lemma max_contents_witness :
  (forall y, In y [exp (symbol "x")] ->
             In y [symbol "x"] \/ In y [exp (symbol "x")]) /\
  ((forall y, In y [symbol "x"] -> In y [exp (symbol "x")]) \/
   (forall y, In y [exp (symbol "x")] -> In y [exp (symbol "x")])) /\
  ([exp (symbol "x")] = [] -> [symbol "x"] = [] /\ [exp (symbol "x")] = []).
Proof.
  apply (max_contents RefKernel.K 1 [symbol "x"] [exp (symbol "x")]
           [exp (symbol "x")] (symbol "x")).
  vm_compute. reflexivity.
Defined.

Lemma max_without_compare_witness :
  max RefKernel.K 5 [symbol "x"] [exp (symbol "x")] (symbol "x")
    = max RefKernel.K 1 [symbol "x"] [exp (symbol "x")] (symbol "x") /\
  max RefKernel.K 1 [symbol "x"] [exp (symbol "x")] (symbol "x")
    = Ok [exp (symbol "x")].
Proof.
  apply (max_without_compare RefKernel.K 4 [symbol "x"] [exp (symbol "x")]
           (symbol "x")).
  right. right. right. left. vm_compute. reflexivity.
Defined.

(** ** The shape of the mrv set *)

Section MrvShape.

Variable K : kernel.
Variable x : expr.

Lemma max_in (n : nat) (f g l : list expr) (y : expr) :
  max K n f g x = Ok l -> In y l -> In y f \/ In y g.
Proof.
  intros H Hy. apply max_cases in H as [-> | [-> | ->]]; auto.
  rewrite union_filter in Hy. apply in_app_or in Hy as [Hy|Hy]; [auto|].
  apply filter_In in Hy as [Hy _]. auto.
Qed.

Lemma mrv_shape (n : nat) (e : expr) (l : list expr) :
  mrv K n e x = Ok l -> forall t, In t l -> t = x \/ is_exp t = true.
Proof.
  revert e l; induction n as [|n IH]; intros e l H; [discriminate|].
  rewrite mrv_eq in H.
  destruct (negb (has K e x)); [injection H as <-; intros t []|].
  destruct (k_eq K e x).
  { injection H as <-. intros t [<-|[]]. auto. }
  assert (Hmax : forall la lb a b,
             mrv K n a x = Ok la -> mrv K n b x = Ok lb ->
             max K n la lb x = Ok l ->
             forall t, In t l -> t = x \/ is_exp t = true).
  { intros la lb a b Ha Hb Hm t Ht.
    destruct (max_in _ _ _ _ _ Hm Ht); eauto. }
  destruct e; try discriminate.
  - destruct (k_getab K (add args)) as [a b].
    apply bind_ok in H as (la & Hla & H).
    apply bind_ok in H as (lb & Hlb & H). eauto.
  - destruct (k_getab K (mul args)) as [a b].
    apply bind_ok in H as (la & Hla & H).
    apply bind_ok in H as (lb & Hlb & H). eauto.
  - destruct (is_number e2); [eauto | discriminate].
  - apply bind_ok in H as (v & Hv & H).
    destruct (k_eq K v infty); [|eauto].
    apply bind_ok in H as (m & Hm & H). intros t Ht.
    destruct (max_in _ _ _ _ _ H Ht) as [[<-|[]]|Hin]; [auto | eauto].
  - eauto.
Qed.

(** X5.  Every element of the list returned by [mrv(e, x)] is [x] itself or
    an [exp] node. *)
Theorem mrv_elements_are_x_or_exp (n : nat) (e : expr) (l : list expr) :
  mrv K n e x = Ok l ->
  Forall (fun t => t = x \/ is_exp t = true) l.
Proof. intros H. apply Forall_forall. eapply mrv_shape; eauto. Qed.

(** From here on [==] is assumed to hold between [x] and itself and to give
    the same answer with [x] on either side. *)
Hypothesis eq_x_refl : k_eq K x x = true.
Hypothesis eq_x_sym : forall a, k_eq K a x = k_eq K x a.

Lemma intersect_x_free (f : list expr) :
  member K x f = false -> intersect K f [x] = false.
Proof.
  induction f as [|y f IH]; simpl; [reflexivity|].
  rewrite eq_x_sym. destruct (k_eq K x y); [discriminate | exact IH].
Qed.

Lemma member_x_union (f g : list expr) :
  member K x f = false -> member K x g = false ->
  member K x (union K f g) = false.
Proof.
  intros Hf Hg. rewrite union_filter. rewrite member_app, Hf. simpl.
  destruct (member K x (filter _ g)) eqn:Hm; [|reflexivity].
  apply member_filter in Hm. congruence.
Qed.

Lemma max_x_alone (n : nat) (f g l : list expr) :
  max K n f g x = Ok l ->
  (f = [x] \/ member K x f = false) ->
  (g = [x] \/ member K x g = false) ->
  l = [x] \/ member K x l = false.
Proof.
  intros H Hf Hg. destruct n as [|n]; [discriminate|].
  rewrite max_eq in H.
  destruct f as [|f0 f]; [injection H as <-; exact Hg|].
  destruct g as [|g0 g]; [injection H as <-; exact Hf|].
  destruct Hf as [Hf|Hf], Hg as [Hg|Hg].
  - injection Hf as -> ->. injection Hg as -> ->.
    simpl in H. rewrite eq_x_refl in H. simpl in H.
    rewrite union_filter in H. simpl in H. rewrite eq_x_refl in H. simpl in H.
    injection H as <-. auto.
  - injection Hf as -> ->.
    assert (Hi : intersect K [x] (g0 :: g) = false)
      by (simpl; simpl in Hg; rewrite Hg; reflexivity).
    rewrite Hi in H.
    assert (Hm : member K x [x] = true) by (simpl; rewrite eq_x_refl; auto).
    rewrite Hm in H. injection H as <-. auto.
  - injection Hg as -> ->.
    rewrite (intersect_x_free _ Hf), Hf in H.
    assert (Hm : member K x [x] = true) by (simpl; rewrite eq_x_refl; auto).
    rewrite Hm in H. injection H as <-. auto.
  - right.
    destruct (intersect K (f0 :: f) (g0 :: g));
      [injection H as <-; apply member_x_union; assumption|].
    rewrite Hf, Hg in H.
    apply bind_ok in H as (c & _ & H).
    destruct c; injection H as <-; auto using member_x_union.
Qed.

Lemma mrv_x_alone (n : nat) (e : expr) (l : list expr) :
  mrv K n e x = Ok l -> l = [x] \/ member K x l = false.
Proof.
  revert e l; induction n as [|n IH]; intros e l H; [discriminate|].
  rewrite mrv_eq in H.
  destruct (negb (has K e x)); [injection H as <-; auto|].
  destruct (k_eq K e x) eqn:Hex; [injection H as <-; auto|].
  destruct e; try discriminate.
  - destruct (k_getab K (add args)) as [a b].
    apply bind_ok in H as (la & Hla & H).
    apply bind_ok in H as (lb & Hlb & H).
    eapply max_x_alone; eauto.
  - destruct (k_getab K (mul args)) as [a b].
    apply bind_ok in H as (la & Hla & H).
    apply bind_ok in H as (lb & Hlb & H).
    eapply max_x_alone; eauto.
  - destruct (is_number e2); [eauto | discriminate].
  - apply bind_ok in H as (v & Hv & H).
    destruct (k_eq K v infty); [|eauto].
    apply bind_ok in H as (m & Hm & H).
    eapply max_x_alone; eauto.
    right. simpl. rewrite <- eq_x_sym, Hex. reflexivity.
  - eauto.
Qed.

(** X6.  When [==] treats [x] as above, the list returned by [mrv(e, x)] is
    either exactly [[x]] or has no member equal to [x]: [x] never shares the
    mrv set with an [exp] node. *)
Theorem mrv_is_x_alone_or_without_x (n : nat) (e : expr) (l : list expr) :
  mrv K n e x = Ok l -> l = [x] \/ member K x l = false.
Proof. apply mrv_x_alone. Qed.

Hypothesis laws : dependence_laws K x.

Lemma mrv_nil_free (n : nat) (e : expr) :
  mrv K n e x = Ok [] -> has K e x = false.
Proof.
  revert e; induction n as [|n IH]; intros e H; [discriminate|].
  rewrite mrv_eq in H.
  destruct (has K e x) eqn:Hhas; simpl in H; [|reflexivity].
  destruct (k_eq K e x); [discriminate|].
  assert (Hsplit : forall a b la lb,
             k_getab K e = (a, b) -> is_mul e || is_add e = true ->
             mrv K n a x = Ok la -> mrv K n b x = Ok lb ->
             max K n la lb x = Ok [] -> has K e x = false).
  { intros a b la lb Hab Hk Ha Hb Hm.
    apply max_nil in Hm as [-> ->].
    apply (has_getab K x laws e a b Hk Hab); auto. }
  destruct e; try discriminate.
  - destruct (k_getab K (add args)) as [a b] eqn:Hab.
    apply bind_ok in H as (la & Hla & H).
    apply bind_ok in H as (lb & Hlb & H).
    rewrite <- Hhas. eapply Hsplit; eauto.
  - destruct (k_getab K (mul args)) as [a b] eqn:Hab.
    apply bind_ok in H as (la & Hla & H).
    apply bind_ok in H as (lb & Hlb & H).
    rewrite <- Hhas. eapply Hsplit; eauto.
  - destruct (is_number e2) eqn:Hnum; [|discriminate].
    rewrite <- Hhas. apply (has_pow K x laws); auto.
  - apply bind_ok in H as (v & Hv & H). destruct (k_eq K v infty).
    + apply bind_ok in H as (m & Hm & H).
      apply max_nil in H as [H _]. discriminate.
    + rewrite <- Hhas. apply (has_exp K x laws); auto.
  - rewrite <- Hhas. apply (has_ln K x laws); auto.
Qed.

Lemma mrv_entry_ok (n : nat) (e : expr) (Omega : list expr) :
  has K e x = true -> mrv K n e x = Ok Omega ->
  member K x Omega = false -> rewrite_entry Omega = Ok tt.
Proof.
  intros Hhas Hmrv Hmem. unfold rewrite_entry.
  assert (Hexp : Forall (fun t => is_exp t = true) Omega).
  { apply Forall_forall. intros t Ht.
    destruct (mrv_shape n e Omega Hmrv t Ht) as [->|Hexp]; [|exact Hexp].
    assert (Hm : member K x Omega = true)
      by (apply member_iff; exists x; auto).
    congruence. }
  apply assert_all_exp_ok in Hexp. rewrite Hexp. simpl.
  destruct Omega; [|reflexivity].
  apply mrv_nil_free in Hmrv. congruence.
Qed.

(** X7.  For a kernel that keeps the laws above, the set [mrvleadterm]
    computes for an expression depending on [x] and hands to [rewrite] --
    the list returned by [mrv(e, x)] when [x] is not a member of it --
    passes both entry assertions of [rewrite]: it is not empty and all its
    elements are [exp] nodes. *)
Theorem mrv_set_passes_rewrite_entry (n : nat) (e : expr)
  (Omega : list expr) :
  has K e x = true -> mrv K n e x = Ok Omega ->
  member K x Omega = false ->
  rewrite_entry Omega = Ok tt /\ Omega <> [] /\
  Forall (fun t => is_exp t = true) Omega.
Proof.
  intros Hhas Hmrv Hmem.
  pose proof (mrv_entry_ok n e Omega Hhas Hmrv Hmem) as Hentry.
  split; [exact Hentry|]. unfold rewrite_entry in Hentry.
  apply bind_ok in Hentry as ([] & Hall & Hlen).
  apply assert_all_exp_ok in Hall. split; [|exact Hall].
  intros ->. discriminate.
Qed.

End MrvShape.

(** ** Which failures the engine can end in *)

Lemma bind_err {A B} (m : result A) (f : A -> result B) (err : error) :
  bind m f = Err err ->
  m = Err err \/ exists a, m = Ok a /\ f a = Err err.
Proof.
  destruct m as [a|err']; simpl; intros H.
  - right. exists a. auto.
  - left. injection H as <-. reflexivity.
Qed.

Lemma mapM_err {A B} (f : A -> result B) (l : list A) (err : error) :
  mapM f l = Err err -> exists a, In a l /\ f a = Err err.
Proof.
  induction l as [|a l IH]; simpl; intros H; [discriminate|].
  apply bind_err in H as [H|(b & Hb & H)]; [exists a; auto|].
  apply bind_err in H as [H|(bs & Hbs & H)]; [|discriminate].
  destruct (IH H) as (a' & Hin & Ha'). exists a'. auto.
Qed.

Lemma insert_cmp_err (cmp : expr -> expr -> result Z) (p : expr)
  (s : list expr) (err : error) :
  insert_cmp cmp p s = Err err -> exists a b, cmp a b = Err err.
Proof.
  induction s as [|q s IH]; simpl; intros H; [discriminate|].
  apply bind_err in H as [H|(c & Hc & H)]; [eauto|].
  destruct (c <? 0); [discriminate|].
  apply bind_err in H as [H|(r & Hr & H)]; [auto | discriminate].
Qed.

Lemma sort_from_err (cmp : expr -> expr -> result Z) (s l : list expr)
  (err : error) :
  sort_from cmp s l = Err err -> exists a b, cmp a b = Err err.
Proof.
  revert s; induction l as [|a l IH]; simpl; intros s H; [discriminate|].
  apply bind_err in H as [H|(s' & Hs' & H)]; [|eauto].
  eapply insert_cmp_err; eauto.
Qed.

Lemma rewrite_entry_err (Omega : list expr) (err : error) :
  rewrite_entry Omega = Err err ->
  err = AssertionError 178 \/ err = AssertionError 179.
Proof.
  unfold rewrite_entry. intros H.
  apply bind_err in H as [H|([] & _ & H)].
  - left. induction Omega as [|t Omega IH]; simpl in H; [discriminate|].
    destruct (is_exp t); simpl in H; [auto | congruence].
  - right. unfold assert_ in H. destruct (negb _); congruence.
Qed.

Section Failures.

Variable K : kernel.

(** The failures that [limits.py] raises by itself outside the entry of
    [rewrite] and outside the end of [limitinf]. *)
Lemma sign_err (n : nat) (e y : expr) (err : error) :
  sign K n e y = Err err -> err = OutOfFuel \/ exists e', err = SignError e'.
Proof.
  revert e; induction n as [|n IH]; intros e H; simpl in H; [left; congruence|].
  destruct e; try discriminate.
  all: destruct (k_eq K _ y); try discriminate;
    try (injection H as <-; right; eexists; reflexivity).
  - destruct (k_getab K _) as [a b].
    apply bind_err in H as [H|(sa & Hsa & H)]; [eauto|].
    apply bind_err in H as [H|(sb & Hsb & H)]; [eauto | discriminate].
  - apply bind_err in H as [H|(sa & Hsa & H)]; [eauto|].
    destruct (sa =? 1); [discriminate|].
    injection H as <-. right. eexists. reflexivity.
Qed.

Lemma domul_err (l : list expr) (err : error) :
  domul l = Err err -> err = IndexError.
Proof.
  unfold domul. destruct (1 <? length l)%nat; [discriminate|].
  destruct l; congruence.
Qed.

Lemma extract_loop_err (t w : expr) (pre rest : list expr) (err : error) :
  extract_loop K t w pre rest = Err err ->
  err = IndexError \/ err = AssertionError 120.
Proof.
  revert pre; induction rest as [|a rest IH]; simpl; intros pre H;
    [discriminate|].
  destruct (has K a w); [|eauto].
  destruct a; try (right; congruence).
  - apply bind_err in H as [H|(c & _ & H)]; [|discriminate].
    left. eapply domul_err; eauto.
  - apply bind_err in H as [H|(c & _ & H)]; [|discriminate].
    left. eapply domul_err; eauto.
Qed.

Lemma extract_err (t w : expr) (err : error) :
  extract K t w = Err err ->
  err = IndexError \/ err = AssertionError 120 \/ err = AssertionError 113.
Proof.
  unfold extract. destruct (negb (has K t w)); [discriminate|].
  destruct t; try discriminate; try (intros H; right; right; congruence).
  intros H. apply extract_loop_err in H as [H|H]; auto.
Qed.

Lemma lowest_loop_err (w : expr) (low : coefficient * expr)
  (args : list expr) (err : error) :
  lowest_loop K w low args = Err err ->
  err = IndexError \/ err = AssertionError 120 \/ err = AssertionError 113.
Proof.
  revert low; induction args as [|t args IH]; simpl; intros low H;
    [discriminate|].
  apply bind_err in H as [H|(t2 & _ & H)]; [|eauto].
  eapply extract_err; eauto.
Qed.

Lemma leadterm_err (f w : expr) (err : error) :
  leadterm K f w = Err err ->
  (exists n, k_series K f w n = Err err) \/
  err = IndexError \/ err = AssertionError 120 \/
  err = AssertionError 113 \/ err = AssertionError 101.
Proof.
  unfold leadterm. intros H.
  apply bind_err in H as [H|(s0 & Hs0 & H)]; [eauto|].
  apply bind_err in H as [H|([] & _ & H)].
  { unfold assert_ in H. destruct (negb _); [discriminate|].
    right. right. right. right. congruence. }
  right.
  assert (Hx : err = IndexError \/ err = AssertionError 120 \/
               err = AssertionError 113).
  { destruct (k_eval K s0);
      first [eapply lowest_loop_err; eassumption
            | apply bind_err in H as [H|(t2 & _ & H)];
              [eapply extract_err; eassumption | discriminate]]. }
  destruct Hx as [Hx|[Hx|Hx]]; auto.
Qed.

Variable x : expr.
Variable bad : error -> Prop.
Variable J : list expr -> Prop.

Hypothesis bad_kinds :
  forall err, bad err ->
    err = ReturnsNone \/ err = AssertionError 178 \/ err = AssertionError 179.
Hypothesis series_not_bad :
  forall f w n err, k_series K f w n = Err err -> ~ bad err.
Hypothesis J_entry :
  forall Omega err, J Omega -> member K x Omega = false ->
    rewrite_entry Omega = Err err -> ~ bad err.
Hypothesis J_moveup :
  forall Omega, J Omega -> member K x Omega = true -> J (moveup K Omega x).
Hypothesis J_mrv :
  forall n e Omega, has K e x = true -> mrv K n e x = Ok Omega -> J Omega.

Ltac not_bad :=
  let Hb := fresh "Hb" in
  intros Hb; apply bad_kinds in Hb as [Hb|[Hb|Hb]];
  first [discriminate Hb | injection Hb; lia].

Lemma sign_not_bad (n : nat) (e y : expr) (err : error) :
  sign K n e y = Err err -> ~ bad err.
Proof.
  intros H. apply sign_err in H as [->|(e' & ->)]; not_bad.
Qed.

Lemma leadterm_not_bad (f w : expr) (err : error) :
  leadterm K f w = Err err -> ~ bad err.
Proof.
  intros H. apply leadterm_err in H as [(n & H)|[->|[->|[->| ->]]]];
    [eapply series_not_bad; eauto | not_bad ..].
Qed.

Lemma engine_not_bad (n : nat) :
  (forall e err, limitinf K n e x = Err err -> ~ bad err) /\
  (forall e o err, (forall Omega, o = Some Omega -> J Omega) ->
     mrvleadterm K n e x o = Err err -> ~ bad err) /\
  (forall e Omega w err,
     (forall err', rewrite_entry Omega = Err err' -> ~ bad err') ->
     rewrite K n e Omega x w = Err err -> ~ bad err) /\
  (forall e err, mrv K n e x = Err err -> ~ bad err) /\
  (forall f g err, max K n f g x = Err err -> ~ bad err) /\
  (forall a b err, compare K n a b x = Err err -> ~ bad err).
Proof.
  induction n as [|n (IHlim & IHlead & IHrew & IHmrv & IHmax & IHcmp)].
  { repeat split; intros; simpl in *;
      match goal with H : Err OutOfFuel = Err _ |- _ =>
        injection H as <-; not_bad end. }
  repeat split.
  - intros e err H. rewrite limitinf_eq in H.
    destruct (negb (has K e x)); [discriminate|].
    apply bind_err in H as [H|([c0 e0] & Hl & H)].
    { eapply IHlead; [|exact H]. intros; discriminate. }
    apply bind_err in H as [H|(sg & Hs & H)];
      [eapply sign_not_bad; eauto|].
    destruct (sign_range K n e0 x sg Hs) as [->|[->| ->]]; simpl in H;
      [discriminate | discriminate |].
    destruct c0; [injection H as <-; not_bad | eauto].
  - intros e o err HJ H. rewrite mrvleadterm_eq in H. cbv zeta in H.
    destruct (has K (k_eval K e) x) eqn:Hhas; simpl in H; [|discriminate].
    apply bind_err in H as [H|(Omega & HO & H)].
    { destruct o; [discriminate | eauto]. }
    assert (HJO : J Omega).
    { destruct o as [O|]; [injection HO as <-; auto | eauto]. }
    destruct (member K x Omega) eqn:Hmem.
    + apply bind_err in H as [H|(r & _ & H)].
      * eapply IHlead; [|exact H].
        intros O' HO'. injection HO' as <-. auto.
      * unfold movedown_pair in H. destruct (fst r);
          [injection H as <-; not_bad | discriminate].
    + apply bind_err in H as [H|(f & _ & H)];
        [|eapply leadterm_not_bad; eauto].
      eapply IHrew; [|exact H]. intros err' He'. eauto.
  - intros e Omega w err Hentry H. rewrite rewrite_eq in H.
    apply bind_err in H as [H|([] & Hok & H)]; [eauto|].
    apply bind_err in H as [H|(sorted & Hsort & H)].
    { apply sort_from_err in H as (a & b & H).
      apply bind_err in H as [H|(la & _ & H)]; [eauto|].
      apply bind_err in H as [H|(lb & _ & H)]; [eauto | discriminate]. }
    assert (Hexp : Forall (fun t => is_exp t = true) sorted /\ sorted <> []).
    { unfold rewrite_entry in Hok.
      apply bind_ok in Hok as ([] & Hall & Hlen).
      apply assert_all_exp_ok in Hall. apply assert_ok in Hlen.
      apply (sort_cmp_sorted _ (fun _ _ => True)) in Hsort as [_ Hperm];
        auto.
      split; [eapply Permutation_Forall; eauto|].
      intros ->. apply Permutation_sym, Permutation_nil in Hperm.
      subst Omega. discriminate. }
    destruct Hexp as [Hexp Hne]. rewrite Forall_forall in Hexp.
    apply bind_err in H as [H|(g_arg & _ & H)].
    { pose proof (Hexp _ (last_in sorted infty Hne)) as Hg.
      destruct (last sorted infty); discriminate. }
    apply bind_err in H as [H|(sg & _ & H)]; [eapply sign_not_bad; eauto|].
    cbv zeta in H.
    apply bind_err in H as [H|(O2 & _ & H)]; [|discriminate].
    apply mapM_err in H as (f & Hf & H). cbv beta in H.
    apply bind_err in H as [H|(f_arg & _ & H)].
    { apply Hexp in Hf. destruct f; discriminate. }
    apply bind_err in H as [H|(c & _ & H)].
    { eapply IHlead; [|exact H]. intros; discriminate. }
    apply bind_err in H as [H|([] & _ & H)]; [|discriminate].
    unfold assert_ in H. destruct (k_eq K _ _); [discriminate|].
    injection H as <-. not_bad.
  - intros e err H. rewrite mrv_eq in H.
    destruct (negb (has K e x)); [discriminate|].
    destruct (k_eq K e x); [discriminate|].
    assert (Hsplit : forall a b,
               (la <- mrv K n a x ;; lb <- mrv K n b x ;; max K n la lb x)
                 = Err err -> ~ bad err).
    { intros a b Hab.
      apply bind_err in Hab as [Hab|(la & _ & Hab)]; [eauto|].
      apply bind_err in Hab as [Hab|(lb & _ & Hab)]; eauto. }
    destruct e; try (injection H as <-; not_bad).
    + destruct (k_getab K (add args)) as [a b]. eauto.
    + destruct (k_getab K (mul args)) as [a b]. eauto.
    + destruct (is_number e2); [eauto | injection H as <-; not_bad].
    + apply bind_err in H as [H|(l & _ & H)]; [eauto|].
      destruct (k_eq K l infty); [|eauto].
      apply bind_err in H as [H|(m & _ & H)]; eauto.
    + eauto.
  - intros f g err H. rewrite max_eq in H.
    destruct f as [|f0 f]; [discriminate|].
    destruct g as [|g0 g]; [discriminate|].
    destruct (intersect K _ _); [discriminate|].
    destruct (member K x (f0 :: f)); [discriminate|].
    destruct (member K x (g0 :: g)); [discriminate|].
    apply bind_err in H as [H|(c & _ & H)]; [eauto|].
    destruct c; discriminate.
  - intros a b err H. rewrite compare_eq in H.
    apply bind_err in H as [H|(c & _ & H)]; [eauto|].
    destruct (k_eq K c (rational 0)); [discriminate|].
    destruct (k_eq K c infty); discriminate.
Qed.

End Failures.

(** X8.  [limitinf] never runs off the end of its [if]/[elif] chain, which
    would make it return [None]: [sign] yields only 1, -1 and 0.  In the
    embedding that end is the failure [ReturnsNone]; provided no call of the
    kernel's [series] reports it, [limitinf] never ends in it, whatever the
    expression and the fuel. *)
Theorem limitinf_never_returns_none (K : kernel) :
  (forall f w n, k_series K f w n <> Err ReturnsNone) ->
  forall n e x, limitinf K n e x <> Err ReturnsNone.
Proof.
  intros Hseries n e x H.
  refine (proj1 (engine_not_bad K x (fun err => err = ReturnsNone)
                   (fun _ => True) _ _ _ _ _ n) e ReturnsNone H eq_refl).
  - intros err ->. auto.
  - intros f w m err Hs ->. apply (Hseries f w m Hs).
  - intros Omega err _ _ He ->.
    apply rewrite_entry_err in He as [He|He]; discriminate.
  - auto.
  - auto.
Qed.


(** X9.  The entry assertions of [rewrite] never fire inside the engine:
    for a kernel that keeps the dependence laws, for which [x == x] holds
    and [==] answers alike with [x] on either side, for which [x] is not
    [==] to [exp(x)], which turns [x.subs(x, exp(x)).eval()] into [exp(x)]
    and whose [series] raises no assertion of [limits.py], [limitinf(e, x)]
    never fails with the assertion of line 178 or of line 179. *)
Theorem limitinf_never_fails_rewrite_entry (K : kernel) (x : expr) :
  dependence_laws K x ->
  k_eq K x x = true ->
  (forall a, k_eq K a x = k_eq K x a) ->
  k_eq K x (exp x) = false ->
  k_eval K (k_subs K x x (exp x)) = exp x ->
  (forall f w n line, k_series K f w n <> Err (AssertionError line)) ->
  forall n e,
    limitinf K n e x <> Err (AssertionError 178) /\
    limitinf K n e x <> Err (AssertionError 179).
Proof.
  intros laws Hrefl Hsym Hxexp Hup Hseries n e.
  pose (bad := fun err => err = AssertionError 178 \/
                          err = AssertionError 179).
  pose (J := fun Omega : list expr =>
               Omega = [x] \/
               (member K x Omega = false /\ rewrite_entry Omega = Ok tt)).
  assert (Hall : forall err, limitinf K n e x = Err err -> ~ bad err).
  { apply (engine_not_bad K x bad J).
    - intros err [->| ->]; auto.
    - intros f w m err Hs [->| ->]; apply (Hseries _ _ _ _ Hs).
    - intros Omega err [->|[_ Hok]] Hmem He.
      + simpl in Hmem. rewrite Hrefl in Hmem. discriminate.
      + congruence.
    - intros Omega [->|[Hmem _]] Hm; [|congruence].
      right. unfold moveup. simpl. rewrite Hup. simpl. rewrite Hxexp.
      split; reflexivity.
    - intros m e' Omega Hhas Hmrv.
      destruct (mrv_x_alone K x Hrefl Hsym m e' Omega Hmrv) as [->|Hmem];
        [left; reflexivity|].
      right. split; [exact Hmem|].
      eapply mrv_entry_ok; eauto. }
  split; intros H; apply (Hall _ H); unfold bad; auto.
Qed.

Lemma ref_kernel_eq_symbol (s : string) (a : expr) :
  k_eq RefKernel.K a (symbol s) = k_eq RefKernel.K (symbol s) a.
Proof.
  simpl. unfold RefKernel.equals. simpl.
  destruct (RefKernel.eval a); simpl; try reflexivity.
  apply String.eqb_sym.
Qed.

Lemma ref_kernel_series_err (f w : expr) (n line : nat) :
  k_series RefKernel.K f w n <> Err (AssertionError line).
Proof.
  simpl. unfold RefKernel.series.
  destruct (forallb _ _); discriminate.
Qed.

Lemma limitinf_never_returns_none_witness :
  limitinf RefKernel.K 12 (symbol "x") (symbol "x") <> Err ReturnsNone.
Proof.
  apply (limitinf_never_returns_none RefKernel.K).
  intros f w n. simpl. unfold RefKernel.series.
  destruct (forallb _ _); discriminate.
Defined.

Lemma limitinf_never_fails_rewrite_entry_witness :
  limitinf RefKernel.K 3 (exp (symbol "x")) (symbol "x")
    <> Err (AssertionError 178) /\
  limitinf RefKernel.K 3 (exp (symbol "x")) (symbol "x")
    <> Err (AssertionError 179).
Proof.
  apply (limitinf_never_fails_rewrite_entry RefKernel.K (symbol "x")).
  - apply RefKernelFacts.dependence.
  - reflexivity.
  - apply ref_kernel_eq_symbol.
  - reflexivity.
  - reflexivity.
  - apply ref_kernel_series_err.
Defined.

Lemma mrv_elements_are_x_or_exp_witness :
  Forall (fun t => t = symbol "x" \/ is_exp t = true)
    [exp (symbol "x"); exp (mul [rational (-1); symbol "x"])].
Proof.
  apply (mrv_elements_are_x_or_exp RefKernel.K (symbol "x") 40
           (add [exp (symbol "x"); exp (mul [rational (-1); symbol "x"])])).
  vm_compute. reflexivity.
Defined.

Lemma mrv_is_x_alone_or_without_x_witness :
  [symbol "x"] = [symbol "x"] \/
  member RefKernel.K (symbol "x") [symbol "x"] = false.
Proof.
  apply (mrv_is_x_alone_or_without_x RefKernel.K (symbol "x") eq_refl
           (ref_kernel_eq_symbol "x") 12
           (mul [rational 2; symbol "x"])).
  vm_compute. reflexivity.
Defined.

Lemma mrv_set_passes_rewrite_entry_witness :
  rewrite_entry [exp (symbol "x")] = Ok tt /\
  [exp (symbol "x")] <> [] /\
  Forall (fun t => is_exp t = true) [exp (symbol "x")].
Proof.
  apply (mrv_set_passes_rewrite_entry RefKernel.K (symbol "x") eq_refl
           (RefKernelFacts.dependence (symbol "x")) 14
           (add [exp (symbol "x"); symbol "x"]));
    vm_compute; reflexivity.
Defined.

(** ** [limitinf], [compare] and [sign] *)

Section Values.

Variable K : kernel.

(** X10.  [limitinf] is idempotent: for a kernel that finds 0 and [infty]
    free of [x], a value returned by [limitinf(e, x)] is returned unchanged
    by [limitinf] applied to it. *)
Theorem limitinf_idempotent (n m : nat) (e x v : expr) :
  has K (rational 0) x = false -> has K infty x = false ->
  limitinf K n e x = Ok v -> limitinf K (S m) v x = Ok v.
Proof.
  intros H0 Hinf H. rewrite limitinf_eq.
  apply limitinf_value in H as [->|[->|Hv]].
  - rewrite H0. reflexivity.
  - rewrite Hinf. reflexivity.
  - rewrite Hv. reflexivity.
Qed.

(** X11.  What [compare(a, b, x)] answers about the limit [L] of
    [ln(a)/ln(b)]: "<" means [L == 0]; ">" means [L == infty] and not
    [L == 0]; "=" means that [L] is neither, and then, for a kernel for
    which 0 and [infty] are [==] to themselves, [L] is an expression free of
    [x]. *)
Theorem compare_meaning (n : nat) (a b x : expr) (c : comparison) :
  k_eq K (rational 0) (rational 0) = true -> k_eq K infty infty = true ->
  compare K (S n) a b x = Ok c ->
  exists L,
    limitinf K n (e_div (ln a) (ln b)) x = Ok L /\
    match c with
    | Lt => k_eq K L (rational 0) = true
    | Gt => k_eq K L (rational 0) = false /\ k_eq K L infty = true
    | Eq => k_eq K L (rational 0) = false /\ k_eq K L infty = false /\
            has K L x = false
    end.
Proof.
  intros H0 Hinf H. rewrite compare_eq in H.
  apply bind_ok in H as (L & HL & H). exists L. split; [exact HL|].
  destruct (k_eq K L (rational 0)) eqn:E0; [injection H as <-; reflexivity|].
  destruct (k_eq K L infty) eqn:Einf; injection H as <-; [auto|].
  repeat split.
  apply limitinf_value in HL as [->|[->|Hv]]; [congruence | congruence | auto].
Qed.

(** X12.  A value returned by [sign] is 1, -1 or 0, and for an [exp] node
    or a power it is 1: [sign] never reports a power or an exponential as
    negative or zero. *)
Theorem sign_values (n : nat) (e x : expr) (s : Z) :
  sign K n e x = Ok s ->
  (s = 1 \/ s = -1 \/ s = 0) /\
  (is_exp e = true \/ (exists a b, e = pow a b) -> s = 1).
Proof.
  intros H. split; [eapply sign_range; eauto|].
  destruct n as [|n]; [discriminate|]. simpl in H.
  intros [He|(a & b & ->)].
  - destruct e; try discriminate.
    destruct (k_eq K _ x); injection H as <-; reflexivity.
  - destruct (k_eq K _ x); [injection H as <-; reflexivity|].
    apply bind_ok in H as (sa & _ & H).
    destruct (sa =? 1); [injection H as <-; reflexivity | discriminate].
Qed.

End Values.

Lemma limitinf_idempotent_witness :
  limitinf RefKernel.K 5 infty (symbol "x") = Ok infty.
Proof.
  apply (limitinf_idempotent RefKernel.K 12 4 (symbol "x") (symbol "x"));
    vm_compute; reflexivity.
Defined.

Lemma compare_meaning_witness :
  exists L,
    limitinf RefKernel.K 12
      (e_div (ln (exp (symbol "x")))
             (ln (exp (mul [rational (-1); symbol "x"])))) (symbol "x")
      = Ok L /\
    k_eq RefKernel.K L (rational 0) = false /\
    k_eq RefKernel.K L infty = false /\
    has RefKernel.K L (symbol "x") = false.
Proof.
  apply (compare_meaning RefKernel.K 12 (exp (symbol "x"))
           (exp (mul [rational (-1); symbol "x"])) (symbol "x") Eq);
    vm_compute; reflexivity.
Defined.

Lemma sign_values_witness :
  (1 = 1 \/ 1 = -1 \/ 1 = 0) /\
  (is_exp (pow (symbol "x") (rational 3)) = true \/
   (exists a b, pow (symbol "x") (rational 3) = pow a b) -> 1 = 1).
Proof.
  apply (sign_values RefKernel.K 3 (pow (symbol "x") (rational 3))
           (symbol "x")).
  vm_compute. reflexivity.
Defined.

(** ** [extract] and the choice of the leading term *)

Section Extract.

Variable K : kernel.

Lemma domul_ok (l : list expr) (c : expr) :
  domul l = Ok c -> l = [c] \/ ((2 <= length l)%nat /\ c = mul l).
Proof.
  unfold domul. destruct (1 <? length l)%nat eqn:Hlen.
  - intros H. injection H as <-. apply Nat.ltb_lt in Hlen. right. split; auto.
  - apply Nat.ltb_ge in Hlen.
    destruct l as [|a [|b l]]; simpl in *; try discriminate; [|lia].
    intros H. injection H as <-. auto.
Qed.

Lemma extract_loop_ok (t x c e : expr) (pre rest : list expr) :
  Forall (fun p => has K p x = false) pre ->
  extract_loop K t x pre rest = Ok (c, e) ->
  (exists pre' a post,
     pre ++ rest = pre' ++ a :: post /\
     Forall (fun p => has K p x = false) pre' /\
     has K a x = true /\
     domul (pre' ++ post) = Ok c /\
     ((exists b, a = pow b e) \/ (is_symbol a = true /\ e = rational 1))) \/
  (Forall (fun p => has K p x = false) (pre ++ rest) /\
   c = t /\ e = rational 0).
Proof.
  revert pre; induction rest as [|a rest IH]; simpl; intros pre Hpre H.
  - injection H as <- <-. right. rewrite app_nil_r. auto.
  - destruct (has K a x) eqn:Ha.
    + left. exists pre, a, rest.
      destruct a; try discriminate.
      * apply bind_ok in H as (c' & Hc' & H). injection H as <- <-.
        repeat split; auto.
      * apply bind_ok in H as (c' & Hc' & H). injection H as <- <-.
        repeat split; eauto.
    + assert (Hpre' : Forall (fun p => has K p x = false) (pre ++ [a])).
      { apply Forall_app. split; [assumption|]. constructor; auto. }
      specialize (IH (pre ++ [a]) Hpre' H).
      rewrite <- app_assoc in IH. exact IH.
Qed.

(** X13.  On a product that depends on [x], [extract] takes the first
    factor that depends on [x]: that factor is a symbol (exponent 1) or a
    power (exponent its exponent), the factors before it are free of [x],
    and the coefficient is the single remaining factor or the product of
    the remaining factors, which are not looked at again; if no factor
    depends on [x], the product itself is returned with exponent 0. *)
Theorem extract_product (args : list expr) (x c e : expr) :
  has K (mul args) x = true ->
  extract K (mul args) x = Ok (c, e) ->
  (exists pre a post,
     args = pre ++ a :: post /\
     Forall (fun p => has K p x = false) pre /\
     has K a x = true /\
     (pre ++ post = [c] \/
      ((2 <= length (pre ++ post))%nat /\ c = mul (pre ++ post))) /\
     ((exists b, a = pow b e) \/ (is_symbol a = true /\ e = rational 1))) \/
  (Forall (fun p => has K p x = false) args /\
   c = mul args /\ e = rational 0).
Proof.
  intros Hhas H. unfold extract in H. rewrite Hhas in H. simpl in H.
  apply (extract_loop_ok _ _ _ _ [] args (Forall_nil _)) in H.
  simpl in H.
  destruct H as [(pre & a & post & Hargs & Hpre & Ha & Hc & He)|H];
    [left | right; exact H].
  exists pre, a, post. apply domul_ok in Hc. auto.
Qed.

(** X14.  The failures of [leadterm]: it fails only with a failure of the
    kernel's [series] call, with its assertion [series != 0] (line 101),
    with the assertions of [extract] (a term depending on [x] that is no
    power, symbol or product, line 113; a first dependent factor that is no
    power or symbol, line 120), or with the index error of [domul] on a
    product that has no other factor. *)
Theorem leadterm_failures (f w : expr) (err : error) :
  leadterm K f w = Err err ->
  k_series K f w 1 = Err err \/
  err = AssertionError 101 \/ err = AssertionError 113 \/
  err = AssertionError 120 \/ err = IndexError.
Proof.
  unfold leadterm. intros H.
  apply bind_err in H as [H|(s0 & Hs0 & H)]; [auto|]. right.
  apply bind_err in H as [H|([] & _ & H)].
  { unfold assert_ in H. destruct (negb _); [discriminate|].
    left. congruence. }
  right.
  assert (Hx : err = IndexError \/ err = AssertionError 120 \/
               err = AssertionError 113).
  { destruct (k_eval K s0);
      first [eapply lowest_loop_err; eassumption
            | apply bind_err in H as [H|(t2 & _ & H)];
              [eapply extract_err; eassumption | discriminate]]. }
  destruct Hx as [Hx|[Hx|Hx]]; auto.
Qed.

(** A product whose only factor is [x] or a power depending on [x]: [domul]
    is given the empty list. *)
Lemma extract_single_factor (a x : expr) :
  has K (mul [a]) x = true -> has K a x = true ->
  is_symbol a = true \/ (exists b e, a = pow b e) ->
  extract K (mul [a]) x = Err IndexError.
Proof.
  intros Hm Ha Hshape. unfold extract. rewrite Hm. simpl. rewrite Ha.
  destruct Hshape as [Hs|(b & e & ->)]; [|reflexivity].
  destruct a; try discriminate. reflexivity.
Qed.

Hypothesis lt_numbers : order_law K.

Lemma lt_true_numbers (p q : Q) :
  k_lt K (number p) (number q) = true -> (p < q)%Q.
Proof. apply lt_numbers. Qed.

Lemma lt_false_le (p q : Q) :
  k_lt K (number p) (number q) = false -> (q <= p)%Q.
Proof.
  intros H. apply Qnot_lt_le. intros Hlt.
  apply lt_numbers in Hlt. congruence.
Qed.

Lemma lowest_loop_first (x : expr) (args : list expr)
  (ts : list (expr * expr)) (low r : coefficient * expr) :
  mapM (fun t => extract K t x) args = Ok ts ->
  Forall (fun t => is_number (snd t) = true) (low :: map lift ts) ->
  lowest_loop K x low args = Ok r ->
  exists pre post,
    low :: map lift ts = pre ++ r :: post /\
    Forall (fun t => k_lt K (snd r) (snd t) = true) pre /\
    Forall (fun t => k_lt K (snd t) (snd r) = false) post.
Proof.
  revert ts low; induction args as [|t args IH]; simpl;
    intros ts low Hts Hnum Hr.
  - injection Hts as <-. injection Hr as <-.
    exists [], []. repeat split; constructor.
  - apply bind_ok in Hts as (t2 & Ht2 & Hts).
    apply bind_ok in Hts as (ts' & Hts' & Hts). injection Hts as <-.
    rewrite Ht2 in Hr. simpl in Hr. cbn [map] in Hnum |- *.
    inversion Hnum as [|? ? Hlow Hrest]; subst.
    inversion Hrest as [|? ? Hn2 Hrest']; subst.
    change (snd (lift t2)) with (snd t2) in Hn2.
    destruct (snd low) as [ql| | | | | | |] eqn:El; try discriminate.
    destruct (snd t2) as [q2| | | | | | |] eqn:E2; try discriminate.
    assert (E2' : snd (lift t2) = number q2) by exact E2.
    destruct (k_lt K (number q2) (number ql)) eqn:Hlt.
    + assert (Hnum' : Forall (fun t => is_number (snd t) = true)
                        (lift t2 :: map lift ts'))
        by assumption.
      destruct (IH ts' (lift t2) Hts' Hnum' Hr)
        as (pre & post & Hsplit & Hpre & Hpost).
      exists (low :: pre), post. split; [rewrite Hsplit; reflexivity|].
      split; [|exact Hpost]. constructor; [|exact Hpre].
      rewrite El. destruct pre as [|p pre].
      * injection Hsplit as <- _. rewrite E2'. exact Hlt.
      * injection Hsplit as <- Hsplit.
        inversion Hpre as [|? ? Hp _]; subst. rewrite E2' in Hp.
        assert (Hrin : In r (map lift ts'))
          by (rewrite Hsplit; apply in_or_app; right; left; reflexivity).
        rewrite Forall_forall in Hrest'. apply Hrest' in Hrin.
        destruct (snd r) as [qr| | | | | | |]; try discriminate.
        apply lt_numbers. apply lt_true_numbers in Hp, Hlt.
        eapply Qlt_trans; eauto.
    + assert (Hnum' : Forall (fun t => is_number (snd t) = true)
                        (low :: map lift ts')).
      { constructor; [rewrite El; reflexivity | assumption]. }
      destruct (IH ts' low Hts' Hnum' Hr)
        as (pre & post & Hsplit & Hpre & Hpost).
      destruct pre as [|p pre].
      * injection Hsplit as <- <-.
        exists [], (lift t2 :: map lift ts'). split; [reflexivity|].
        split; [constructor|]. constructor; [|exact Hpost].
        rewrite El, E2'. exact Hlt.
      * injection Hsplit as <- Hsplit.
        exists (low :: lift t2 :: pre), post.
        split; [rewrite Hsplit; reflexivity|].
        split; [|exact Hpost].
        inversion Hpre as [|? ? Hp Hpre']; subst.
        constructor; [exact Hp|]. constructor; [|exact Hpre'].
        rewrite El in Hp. rewrite E2'.
        assert (Hrin : In r (map lift ts'))
          by (rewrite Hsplit; apply in_or_app; right; left; reflexivity).
        rewrite Forall_forall in Hrest'. apply Hrest' in Hrin.
        destruct (snd r) as [qr| | | | | | |]; try discriminate.
        apply lt_numbers. apply lt_true_numbers in Hp.
        apply lt_false_le in Hlt. eapply Qlt_le_trans; eauto.
Qed.

(** X15.  Among the candidates of a sum -- the initial pair [(0, 10**10)]
    and then the pairs extracted from the summands, in order -- [leadterm]
    returns the first one with the least exponent: every candidate before
    it has a strictly greater exponent and no candidate after it has a
    smaller one.  In particular the initial pair, with coefficient 0, is
    returned when no summand has an exponent below [10**10]. *)
Theorem leadterm_first_minimum (f w s0 : expr) (args : list expr)
  (ts : list (expr * expr)) (r : coefficient * expr) :
  k_series K f w 1 = Ok s0 ->
  k_eval K s0 = add args ->
  mapM (fun t => extract K t w) args = Ok ts ->
  Forall (fun t => is_number (snd t) = true)
    (lowest_init K :: map lift ts) ->
  leadterm K f w = Ok r ->
  (exists pre post,
     lowest_init K :: map lift ts = pre ++ r :: post /\
     Forall (fun t => k_lt K (snd r) (snd t) = true) pre /\
     Forall (fun t => k_lt K (snd t) (snd r) = false) post) /\
  (Forall (fun t => k_lt K (snd t) (snd (lowest_init K)) = false) ts ->
   r = lowest_init K).
Proof.
  intros Hs Heval Hts Hnum Hr. unfold leadterm in Hr.
  rewrite Hs in Hr. simpl in Hr. rewrite Heval in Hr.
  apply bind_ok in Hr as ([] & _ & Hr).
  destruct (lowest_loop_first w args ts (lowest_init K) r Hts Hnum Hr)
    as (pre & post & Hsplit & Hpre & Hpost).
  split; [exists pre, post; auto|].
  intros Hnone. destruct pre as [|p pre].
  - injection Hsplit as <- _. reflexivity.
  - injection Hsplit as <- Hts'. exfalso.
    inversion Hpre as [|? ? Hp _]; subst.
    assert (Hrin : In r (map lift ts))
      by (rewrite Hts'; apply in_or_app; right; left; reflexivity).
    apply in_map_iff in Hrin as (t & <- & Hin).
    rewrite Forall_forall in Hnone. apply Hnone in Hin.
    change (snd (lift t)) with (snd t) in Hp. congruence.
Qed.

End Extract.

Lemma extract_product_witness :
  (exists pre a post,
     [rational (-1); pow (symbol "w") (rational (-1))] = pre ++ a :: post /\
     Forall (fun p => has RefKernel.K p (symbol "w") = false) pre /\
     has RefKernel.K a (symbol "w") = true /\
     (pre ++ post = [rational (-1)] \/
      ((2 <= length (pre ++ post))%nat /\
       rational (-1) = mul (pre ++ post))) /\
     ((exists b, a = pow b (rational (-1))) \/
      (is_symbol a = true /\ rational (-1) = rational 1))) \/
  (Forall (fun p => has RefKernel.K p (symbol "w") = false)
     [rational (-1); pow (symbol "w") (rational (-1))] /\
   rational (-1) = mul [rational (-1); pow (symbol "w") (rational (-1))] /\
   rational (-1) = rational 0).
Proof.
  apply (extract_product RefKernel.K
           [rational (-1); pow (symbol "w") (rational (-1))] (symbol "w"));
    vm_compute; reflexivity.
Defined.

Lemma leadterm_failures_witness :
  k_series RefKernel.K (rational 0) (symbol "w") 1
    = Err (AssertionError 101) \/
  AssertionError 101 = AssertionError 101 \/
  AssertionError 101 = AssertionError 113 \/
  AssertionError 101 = AssertionError 120 \/
  AssertionError 101 = IndexError.
Proof.
  apply (leadterm_failures RefKernel.K (rational 0) (symbol "w")).
  vm_compute. reflexivity.
Defined.

Lemma leadterm_first_minimum_witness :
  (exists pre post,
     lowest_init RefKernel.K ::
       map lift [(rational 1, rational (-1)); (symbol "x", rational 0)]
       = pre ++ (kexpr (rational 1), rational (-1)) :: post /\
     Forall (fun t => k_lt RefKernel.K (rational (-1)) (snd t) = true) pre /\
     Forall (fun t => k_lt RefKernel.K (snd t) (rational (-1)) = false)
            post) /\
  (Forall (fun t => k_lt RefKernel.K (snd t)
                      (snd (lowest_init RefKernel.K)) = false)
          [(rational 1, rational (-1)); (symbol "x", rational 0)] ->
   (kexpr (rational 1), rational (-1)) = lowest_init RefKernel.K).
Proof.
  apply (leadterm_first_minimum RefKernel.K ref_kernel_order
           (add [pow (symbol "w") (rational (-1)); symbol "x"]) (symbol "w")
           (add [pow (symbol "w") (rational (-1)); symbol "x"])
           [pow (symbol "w") (rational (-1)); symbol "x"]);
    try (vm_compute; reflexivity).
  repeat constructor.
Defined.


(** ** Canonical form of the argument *)

(** X17.  [mrvleadterm] works on the canonical form of its argument: when
    evaluating the canonical form of [e] again changes nothing,
    [mrvleadterm(e, x, Omega)] is [mrvleadterm(e.eval(), x, Omega)]; and
    when moreover [e] and its canonical form both depend on [x],
    [limitinf(e, x)] is [limitinf(e.eval(), x)]. *)
Theorem limitinf_of_canonical_form (K : kernel) (n : nat) (e x : expr) :
  k_eval K (k_eval K e) = k_eval K e ->
  (forall o, mrvleadterm K n e x o = mrvleadterm K n (k_eval K e) x o) /\
  (has K e x = true -> has K (k_eval K e) x = true ->
   limitinf K (S n) e x = limitinf K (S n) (k_eval K e) x).
Proof.
  intros Hidem.
  assert (Hlead : forall o,
             mrvleadterm K n e x o = mrvleadterm K n (k_eval K e) x o).
  { intros o. destruct n as [|n]; [reflexivity|].
    rewrite !mrvleadterm_eq. cbv zeta. rewrite Hidem. reflexivity. }
  split; [exact Hlead|].
  intros He Hc. rewrite !limitinf_eq, He, Hc. simpl.
  rewrite Hlead. reflexivity.
Qed.

Lemma limitinf_of_canonical_form_witness :
  limitinf RefKernel.K 12
    (mul [symbol "x"; symbol "x"; pow (symbol "x") (rational (-1))])
    (symbol "x") =
  limitinf RefKernel.K 12
    (k_eval RefKernel.K
       (mul [symbol "x"; symbol "x"; pow (symbol "x") (rational (-1))]))
    (symbol "x").
Proof.
  apply (limitinf_of_canonical_form RefKernel.K 11
           (mul [symbol "x"; symbol "x"; pow (symbol "x") (rational (-1))])
           (symbol "x")); vm_compute; reflexivity.
Defined.
